(** * OptiRoute logistic optimizer: source selector and route planner

    A shallow embedding of [SampleAgentSelector.py]:
    - [haversine_km]                 (lines 10-16),
    - [assign_orders_to_warehouses]  (lines 18-44),
    - [build_distance_matrix]        (lines 49-58),
    - [solve_vrp]                    (lines 60-81),
    - [run_dashboard]                (lines 91-142).

    Python [float] is IEEE-754 binary64, embedded as the kernel's primitive
    [float]; the operators [+ - * /] and [math.sqrt] are the correctly
    rounded IEEE operations.  The transcendental functions of [math] call the
    platform's C library, whose results are not fixed by any standard: they
    are the fields of a record [Libm] over which the development is
    parametric.  Exceptions are values of [exn]. *)

From Stdlib Require Import ZArith List Lia Bool String Floats Permutation Sorted.
Import ListNotations.

Set Implicit Arguments.

(* ================================================================== *)
(** * The Python runtime *)

Module Py.

(** ** Exceptions *)

(** [IndexError], [ValueError] and [OverflowError] are the exceptions the
    embedded code can raise.  [InvalidInput] and [NoSolution] are the error
    kinds named by the specification; nothing in the source raises them. *)
Inductive exn : Type :=
| IndexError | ValueError | OverflowError | InvalidInput | NoSolution.

Inductive result (A : Type) : Type :=
| Ok (a : A)
| Raise (e : exn).
Arguments Ok {A} a.
Arguments Raise {A} e.

Definition bind {A B} (r : result A) (k : A -> result B) : result B :=
  match r with
  | Ok a => k a
  | Raise e => Raise e
  end.

Fixpoint mapM {A B} (f : A -> result B) (l : list A) : result (list B) :=
  match l with
  | [] => Ok []
  | x :: l' =>
      bind (f x) (fun y => bind (mapM f l') (fun ys => Ok (y :: ys)))
  end.

(** ** Floats *)

(** [float(n)] for a Python [int]: the nearest binary64 value, ties to even;
    [OverflowError] when it rounds past the largest finite value. *)
Definition float_of_int (z : Z) : result float :=
  match binary_normalize prec emax z 0 false with
  | S754_infinity _ => Raise OverflowError
  | s => Ok (SF2Prim s)
  end.

(** [int(x)] for a Python [float]: truncation toward zero. *)
Definition int_of_float (x : float) : result Z :=
  match Prim2SF x with
  | S754_nan => Raise ValueError
  | S754_infinity _ => Raise OverflowError
  | S754_zero _ => Ok 0%Z
  | S754_finite s m e =>
      let a := if (0 <=? e)%Z then Z.shiftl (Zpos m) e
               else Z.shiftr (Zpos m) (- e) in
      Ok (if s then (- a)%Z else a)
  end.

(** Quotient [n / d] rounded to the nearest integer, ties to even
    ([0 <= n], [0 < d]). *)
Definition div_half_even (n d : Z) : Z :=
  let q := (n / d)%Z in
  match (2 * (n mod d) ?= d)%Z with
  | Lt => q
  | Gt => (q + 1)%Z
  | Eq => if Z.even q then q else (q + 1)%Z
  end.

(** [round(x, 2)]: the exact binary value of [x] is rounded to a multiple of
    1/100 (ties to even), and the decimal obtained is converted back to the
    nearest binary64 value.  Infinities and NaN round to themselves. *)
Definition round2 (x : float) : float :=
  match Prim2SF x with
  | S754_finite s m e =>
      if (0 <=? e)%Z then x
      else
        match div_half_even (Zpos m * 100) (2 ^ (- e)) with
        | Zpos k =>
            SF2Prim (SFdiv prec emax (S754_finite s k 0)
                                     (S754_finite false 100 0))
        | _ => SF2Prim (S754_zero s)
        end
  | _ => x
  end.

(** ** The [math] module *)

(** The C library behind [math]. *)
Record Libm : Type := mkLibm {
  c_sin : float -> float;
  c_cos : float -> float;
  c_asin : float -> float;
  c_pow : float -> float -> float
}.

(** [math_1] of [mathmodule.c] with [can_overflow = 0]: a NaN result for a
    non-NaN argument, or an infinite result for a finite argument, is a
    "math domain error". *)
Definition math_1 (f : float -> float) (x : float) : result float :=
  let r := f x in
  if is_nan r && negb (is_nan x) then Raise ValueError
  else if is_infinity r && PrimFloat.is_finite x then Raise ValueError
  else Ok r.

Definition pi : float := 0x1.921fb54442d18p+1.
Definition degToRad : float := Eval vm_compute in (pi / 180)%float.

Definition radians (x : float) : float := (x * degToRad)%float.

Section Math.
Variable L : Libm.

Definition sin := math_1 (c_sin L).
Definition cos := math_1 (c_cos L).
Definition asin := math_1 (c_asin L).
Definition sqrt := math_1 PrimFloat.sqrt.

(** [x ** 2] on a float ([float_pow] of [floatobject.c] at exponent 2):
    NaN, infinities, zeros and 1 are answered directly, a negative base is
    replaced by its absolute value (the exponent is even), and an infinite
    result of the C [pow] is an [OverflowError]. *)
Definition pow2 (x : float) : result float :=
  if is_nan x then Ok x
  else if is_infinity x then Ok (abs x)
  else if (x =? 0)%float then Ok 0%float
  else
    let v := if (x <? 0)%float then (- x)%float else x in
    if (v =? 1)%float then Ok 1%float
    else
      let r := c_pow L v 2 in
      if is_infinity r then Raise OverflowError else Ok r.
End Math.

(** ** [list.sort(key=...)]

    [list.sort] is stable and compares keys with [<] only.  On keys that
    [<] orders (floats without NaN) its result is the one of the stable
    insertion sort below: [insert] puts [x], which precedes the elements of
    [l] in the input, before the first element whose key is not smaller.
    With a NaN among the keys the order [list.sort] leaves depends on its
    merging; the result is a permutation of the input all the same, and the
    statements that admit NaN distances use nothing else of the sort. *)
Section Sort.
Context {K A : Type}.
Variable lt : K -> K -> bool.
Variable key : A -> K.

Fixpoint insert (x : A) (l : list A) : list A :=
  match l with
  | [] => [x]
  | y :: l' => if lt (key y) (key x) then y :: insert x l' else x :: y :: l'
  end.

Fixpoint sort (l : list A) : list A :=
  match l with
  | [] => []
  | x :: l' => insert x (sort l')
  end.
End Sort.

End Py.

Import Py.

Declare Scope py_scope.
Delimit Scope py_scope with py.
Notation "x <- c ;; k" := (bind c (fun x => k))
  (at level 61, c at next level, right associativity) : py_scope.
Open Scope py_scope.

(* ================================================================== *)
(** * Source selector *)

Section Haversine.
Variable L : Libm.

(** Lines 10-16.  The sum [a] is evaluated left to right. *)
Definition haversine_km (lat1 lon1 lat2 lon2 : float) : result float :=
  let R := 6371%float in
  let phi1 := radians lat1 in
  let phi2 := radians lat2 in
  let dphi := radians (lat2 - lat1) in
  let dlambda := radians (lon2 - lon1) in
  s1 <- sin L (dphi / 2) ;;
  p1 <- pow2 L s1 ;;
  c1 <- cos L phi1 ;;
  c2 <- cos L phi2 ;;
  s2 <- sin L (dlambda / 2) ;;
  p2 <- pow2 L s2 ;;
  let a := (p1 + c1 * c2 * p2)%float in
  r <- sqrt a ;;
  t <- asin L r ;;
  Ok (2 * R * t)%float.
End Haversine.

(** ** Records

    The dictionaries of the source are used as records.  The keys read with
    [d[k]] are fields; the keys read only with [d.get(k, default)] are
    optional fields.  [inventory] is written with [w["inventory"] -= qty]
    (line 29) and is a field.  Quantities and inventories are Python
    integers, coordinates and costs are floats. *)

Record Warehouse : Type := mkWarehouse {
  w_id : Z;
  w_name : string;
  w_lat : float;
  w_lon : float;
  w_inventory : Z;
  w_unit_cost : option float
}.

Record Order : Type := mkOrder {
  o_id : Z;
  o_lat : float;
  o_lon : float;
  o_qty : option Z
}.

Record Assignment : Type := mkAssignment {
  a_order_id : Z;
  a_warehouse_id : Z;
  a_warehouse_name : string;
  a_dist_km : float;
  a_transport_cost : float;
  a_item_cost : float;
  a_backorder : bool;
  a_total_cost : float;
  a_qty : Z;
  a_lat : float;
  a_lon : float
}.

Definition set_inventory (w : Warehouse) (n : Z) : Warehouse :=
  {| w_id := w_id w; w_name := w_name w; w_lat := w_lat w; w_lon := w_lon w;
     w_inventory := n; w_unit_cost := w_unit_cost w |}.

(** ** The object store

    Warehouse dictionaries are mutable objects: a list of warehouses is a
    list of references into a heap, and two entries of a list may be the same
    object. *)

Abbreviation ref := nat (only parsing).

Record Heap : Type := mkHeap {
  next : ref;
  cell : ref -> Warehouse
}.

Definition alloc (h : Heap) (w : Warehouse) : Heap * ref :=
  ({| next := S (next h);
      cell := fun l => if Nat.eqb l (next h) then w else cell h l |},
   next h).

Definition store (h : Heap) (r : ref) (w : Warehouse) : Heap :=
  {| next := next h;
     cell := fun l => if Nat.eqb l r then w else cell h l |}.

(** State and exceptions: a computation maps the heap to the heap it leaves
    and a value or an exception. *)
Definition M (A : Type) : Type := Heap -> Heap * result A.

Definition ret {A} (a : A) : M A := fun h => (h, Ok a).
Definition lift {A} (r : result A) : M A := fun h => (h, r).
Definition get_heap : M Heap := fun h => (h, Ok h).
Definition read (r : ref) : M Warehouse := fun h => (h, Ok (cell h r)).
Definition bindM {A B} (c : M A) (k : A -> M B) : M B :=
  fun h =>
    match c h with
    | (h', Ok a) => k a h'
    | (h', Raise e) => (h', Raise e)
    end.

Notation "x <~ c ;; k" := (bindM c (fun x => k))
  (at level 61, c at next level, right associativity) : py_scope.

(** ** [copy.deepcopy] of a list of warehouses

    [memo] maps the objects already copied to their copies, so that an object
    met twice is copied once. *)

Fixpoint memo_get (memo : list (ref * ref)) (r : ref) : option ref :=
  match memo with
  | [] => None
  | (r0, c) :: memo' => if Nat.eqb r0 r then Some c else memo_get memo' r
  end.

Fixpoint deepcopy_list (ws : list ref) (memo : list (ref * ref)) (h : Heap)
  : Heap * list ref :=
  match ws with
  | [] => (h, [])
  | r :: ws' =>
      match memo_get memo r with
      | Some c =>
          let '(h', cs) := deepcopy_list ws' memo h in (h', c :: cs)
      | None =>
          let '(h1, c) := alloc h (cell h r) in
          let '(h', cs) := deepcopy_list ws' ((r, c) :: memo) h1 in
          (h', c :: cs)
      end
  end.

Definition deepcopy (ws : list ref) : M (list ref) :=
  fun h => let '(h', cs) := deepcopy_list ws [] h in (h', Ok cs).

(** ** The assignment engine *)

(** [o.get("qty", 1)] and [w.get("unit_cost", 0.0)]. *)
Definition qty_of (o : Order) : Z :=
  match o_qty o with Some q => q | None => 1%Z end.

Definition unit_cost_of (w : Warehouse) : float :=
  match w_unit_cost w with Some c => c | None => 0%float end.

(** Lines 34-43: the costs and the record appended for order [o], assigned
    to warehouse [w] at distance [dist_km]; [fq] is the quantity as the
    float the product of line 35 converts it to. *)
Definition record (transport_cost_per_km backorder_penalty : float)
    (o : Order) (w : Warehouse) (dist_km : float) (backorder : bool)
    (fq : float) : Assignment :=
  let transport_cost := (dist_km * transport_cost_per_km)%float in
  let item_cost := (unit_cost_of w * fq)%float in
  let total_cost :=
    (transport_cost + item_cost
     + (if backorder then backorder_penalty else 0))%float in
  {| a_order_id := o_id o;
     a_warehouse_id := w_id w;
     a_warehouse_name := w_name w;
     a_dist_km := round2 dist_km;
     a_transport_cost := round2 transport_cost;
     a_item_cost := round2 item_cost;
     a_backorder := backorder;
     a_total_cost := round2 total_cost;
     a_qty := qty_of o;
     a_lat := o_lat o;
     a_lon := o_lon o |}.

(** Line 24. *)
Definition sort_distances (ds : list (float * ref)) : list (float * ref) :=
  sort PrimFloat.ltb fst ds.

(** Lines 26-30: the first candidate with enough stock is taken and its
    inventory decremented. *)
Fixpoint scan (ds : list (float * ref)) (qty : Z) : M (option (ref * float)) :=
  fun h =>
    match ds with
    | [] => (h, Ok None)
    | (d, w) :: ds' =>
        if (qty <=? w_inventory (cell h w))%Z then
          (store h w (set_inventory (cell h w) (w_inventory (cell h w) - qty)),
           Ok (Some (w, d)))
        else scan ds' qty h
    end.

(** Lines 31-33: without a stocked candidate the head of the sorted list is
    taken; [distances[0]] of an empty list is an [IndexError].  A warehouse
    dictionary has keys, so that [not assigned] holds exactly when [assigned]
    is still [None]. *)
Definition fallback (ds : list (float * ref)) (found : option (ref * float))
  : result (ref * float * bool) :=
  match found with
  | Some (w, d) => Ok (w, d, false)
  | None =>
      match ds with
      | [] => Raise IndexError
      | (d, w) :: _ => Ok (w, d, true)
      end
  end.

Section Engine.
Variable L : Libm.

(** The distance of line 23 for one warehouse. *)
Definition distance_to (h : Heap) (o : Order) (w : ref) : result float :=
  haversine_km L (o_lat o) (o_lon o) (w_lat (cell h w)) (w_lon (cell h w)).

(** Line 23. *)
Definition distances_of (h : Heap) (o : Order) (whs : list ref)
  : result (list (float * ref)) :=
  mapM (fun w => d <- distance_to h o w ;; Ok (d, w)) whs.

(** Lines 22-43: the body of the loop over the orders. *)
Definition assign_order (whs : list ref)
    (transport_cost_per_km backorder_penalty : float) (o : Order)
  : M Assignment :=
  let qty := qty_of o in
  h <~ get_heap ;;
  ds <~ lift (distances_of h o whs) ;;
  let ds := sort_distances ds in
  found <~ scan ds qty ;;
  sel <~ lift (fallback ds found) ;;
  let '(assigned, dist_km, backorder) := sel in
  w <~ read assigned ;;
  fq <~ lift (float_of_int qty) ;;
  ret (record transport_cost_per_km backorder_penalty o w dist_km backorder fq).

(** Lines 21-44. *)
Fixpoint assign_loop (whs : list ref) (tc bp : float) (os : list Order)
  : M (list Assignment) :=
  match os with
  | [] => ret []
  | o :: os' =>
      a <~ assign_order whs tc bp o ;;
      rest <~ assign_loop whs tc bp os' ;;
      ret (a :: rest)
  end.

(** Lines 18-44. *)
Definition assign_orders_to_warehouses (warehouses : list ref)
    (orders : list Order) (transport_cost_per_km backorder_penalty : float)
  : M (list Assignment) :=
  whs <~ deepcopy warehouses ;;
  assign_loop whs transport_cost_per_km backorder_penalty orders.
End Engine.

(** The default configuration of line 18. *)
Definition default_transport_cost_per_km : float := 0.5.
Definition default_backorder_penalty : float := 50.

(* ================================================================== *)
(** * Route planner *)

Record Location : Type := mkLocation {
  l_lat : float;
  l_lon : float
}.

Section Matrix.
Variable L : Libm.

(** Lines 56-57: the entry of two distinct locations. *)
Definition entry (a b : Location) : result Z :=
  d <- haversine_km L (l_lat a) (l_lon a) (l_lat b) (l_lon b) ;;
  int_of_float (d * 1000)%float.

(** Lines 49-58.  The rows are filled in order, each from left to
    right; the diagonal keeps the initial [0]. *)
Definition build_distance_matrix (depot : Location)
    (customers : list Location) : result (list (list Z)) :=
  let locations := depot :: customers in
  let n := List.length locations in
  mapM (fun i =>
          mapM (fun j =>
                  if Nat.eqb i j then Ok 0%Z
                  else entry (nth i locations depot) (nth j locations depot))
               (seq 0 n))
       (seq 0 n).
End Matrix.

(** ** The routing solver

    OR-Tools is an external library.  [RoutingModel] gathers what the source
    reads from the index manager and the routing model it builds (lines
    62-63); [solve] is [SolveWithParameters], which answers with the value of
    every [NextVar] or with nothing. *)

Record RoutingModel : Type := mkRoutingModel {
  Start : nat -> nat;
  IsEnd : nat -> bool;
  IndexToNode : nat -> nat
}.

Definition Solution : Type := nat -> nat.

Record Solver : Type := mkSolver {
  model : nat -> nat -> nat -> RoutingModel;
  solve : RoutingModel -> (nat -> nat -> Z) -> Z -> option Solution
}.

(** Lines 64-65: the arc cost handed to the solver. *)
Definition dist_cb (routing : RoutingModel) (distance_matrix : list (list Z))
    (from_idx to_idx : nat) : Z :=
  nth (IndexToNode routing to_idx)
      (nth (IndexToNode routing from_idx) distance_matrix []) 0%Z.

Section Routing.
Variable ortools : Solver.

(** Lines 75-79: the indices visited from [idx] to the end of the route.
    The loop is bounded by [fuel]. *)
Fixpoint walk (routing : RoutingModel) (solution : Solution)
    (fuel : nat) (idx : nat) : option (list nat) :=
  match fuel with
  | O => None
  | S fuel' =>
      if IsEnd routing idx then Some [IndexToNode routing idx]
      else
        match walk routing solution fuel' (solution idx) with
        | Some route => Some (IndexToNode routing idx :: route)
        | None => None
        end
  end.

Fixpoint routes_of (routing : RoutingModel) (solution : Solution)
    (fuel : nat) (vehicles : list nat) : option (list (list nat)) :=
  match vehicles with
  | [] => Some []
  | v :: vs =>
      match walk routing solution fuel (Start routing v) with
      | Some route =>
          match routes_of routing solution fuel vs with
          | Some routes => Some (route :: routes)
          | None => None
          end
      | None => None
      end
  end.

(** Lines 60-81.  A solution object is truthy, so that [if solution] tests
    whether the solver has answered; without a solution the empty [routes]
    of line 72 is returned.  [None] when a route has not reached its end
    within [fuel] steps. *)
Definition solve_vrp (fuel : nat) (distance_matrix : list (list Z))
    (num_vehicles depot_index : nat) (time_limit_s : Z)
  : option (result (list (list nat))) :=
  let n := List.length distance_matrix in
  let routing := model ortools n num_vehicles depot_index in
  match solve ortools routing (dist_cb routing distance_matrix) time_limit_s with
  | Some solution =>
      match routes_of routing solution fuel (seq 0 num_vehicles) with
      | Some routes => Some (Ok routes)
      | None => None
      end
  | None => Some (Ok [])
  end.
End Routing.

(* ================================================================== *)
(** * Dashboard

    [run_dashboard] (lines 91-142) is the script that Streamlit runs once
    for every interaction.  One run reads the session state and the values
    of the widgets, and leaves a session state.  The calls that only display
    (titles, tables, the download button, the markers and the map) return
    nothing that the script reads and are left out; the points of the
    polyline of line 140 are what a run shows. *)

(** [st.session_state]: the keys [assignments] and [routes].  Lines 96-97
    give [None] to a missing key, which [None] stands for as well. *)
Record Session : Type := mkSession {
  s_assignments : option (list Assignment);
  s_routes : option (list (list nat))
}.

(** What the widgets return in one run: the two buttons, and the select box
    as a function of its options. *)
Record Widgets : Type := mkWidgets {
  select_source : bool;
  selectbox : list Z -> Z;
  plan_route : bool
}.

(** The exceptions of a run: those of [exn], and the two that only the
    dashboard can meet, [StopIteration] from [next] and [TypeError] from
    indexing [None]. *)
Inductive dashboard_exn : Type :=
| Exn (e : exn)
| StopIteration
| TypeError.

(** A step of a run is done, has raised, or waits for [solve_vrp]. *)
Inductive outcome (A : Type) : Type :=
| Done (a : A)
| Failed (e : dashboard_exn)
| Pending.
Arguments Done {A} a.
Arguments Failed {A} e.
Arguments Pending {A}.

(** The truth value of a list or [None]. *)
Definition truthy {A} (v : option (list A)) : bool :=
  match v with
  | Some (_ :: _) => true
  | _ => false
  end.

(** Line 114: [sorted({a["warehouse_id"] for a in assignments})]. *)
Definition wh_ids (asgs : list Assignment) : list Z :=
  sort Z.ltb (fun x => x) (nodup Z.eq_dec (map a_warehouse_id asgs)).

(** Lines 117 and 129: [next(w for w in warehouses if w["id"] == wid)];
    [None] is [StopIteration]. *)
Fixpoint find_warehouse (h : Heap) (ws : list ref) (wid : Z) : option ref :=
  match ws with
  | [] => None
  | r :: ws' =>
      if (w_id (cell h r) =? wid)%Z then Some r else find_warehouse h ws' wid
  end.

(** Lines 118-119 and 131-132: the customers of a warehouse. *)
Record Customer : Type := mkCustomer {
  c_id : Z;
  c_lat : float;
  c_lon : float
}.

Definition customers_of (asgs : list Assignment) (wid : Z) : list Customer :=
  map (fun a => mkCustomer (a_order_id a) (a_lat a) (a_lon a))
      (filter (fun a => (a_warehouse_id a =? wid)%Z) asgs).

(** [build_distance_matrix] reads the keys [lat] and [lon] of the
    dictionaries it is given. *)
Definition warehouse_location (w : Warehouse) : Location :=
  mkLocation (w_lat w) (w_lon w).

Definition customer_location (c : Customer) : Location :=
  mkLocation (c_lat c) (c_lon c).

(** Line 140: [customers[i-1]] for the nodes [i] of the route other than
    0. *)
Definition stop_point (customers : list Customer) (i : nat)
  : result (float * float) :=
  match nth_error customers (i - 1) with
  | Some c => Ok (c_lat c, c_lon c)
  | None => Raise IndexError
  end.

Section Dashboard.
Variable L : Libm.
Variable ortools : Solver.
Variable fuel : nat.

(** The module's [warehouses] (lines 84-87) and [orders] (line 88). *)
Variable warehouses : list ref.
Variable orders : list Order.

(** Lines 100-102. *)
Definition select_source_step (ui : Widgets) (st : Heap * Session)
  : Heap * Session * outcome unit :=
  let '(h, s) := st in
  if select_source ui then
    match assign_orders_to_warehouses L warehouses orders
            default_transport_cost_per_km default_backorder_penalty h with
    | (h1, Ok asgs) =>
        ((h1, {| s_assignments := Some asgs; s_routes := None |}), Done tt)
    | (h1, Raise e) => ((h1, s), Failed (Exn e))
    end
  else (st, Done tt).

(** Lines 104-121. *)
Definition plan_route_step (ui : Widgets) (st : Heap * Session)
  : Heap * Session * outcome unit :=
  let '(h, s) := st in
  match s_assignments s with
  | Some (a :: rest) =>
      let asgs := a :: rest in
      let selected_wh := selectbox ui (wh_ids asgs) in
      if plan_route ui then
        match find_warehouse h warehouses selected_wh with
        | None => (st, Failed StopIteration)
        | Some depot =>
            let customers := customers_of asgs selected_wh in
            match build_distance_matrix L (warehouse_location (cell h depot))
                    (map customer_location customers) with
            | Raise e => (st, Failed (Exn e))
            | Ok dm =>
                match solve_vrp ortools fuel dm 1 0 5 with
                | None => (st, Pending)
                | Some (Raise e) => (st, Failed (Exn e))
                | Some (Ok routes) =>
                    ((h, {| s_assignments := s_assignments s;
                            s_routes := Some routes |}), Done tt)
                end
            end
        end
      else (st, Done tt)
  | _ => (st, Done tt)
  end.

(** Lines 124-142: the points of the polyline, when there are routes.  The
    generator of line 129 reads [assignments[0]] when it tests its first
    warehouse: with no warehouse [next] raises [StopIteration] before
    that. *)
Definition show_routes_step (st : Heap * Session)
  : outcome (option (list (float * float))) :=
  let '(h, s) := st in
  match s_routes s with
  | Some (route :: _) =>
      match warehouses, s_assignments s with
      | [], _ => Failed StopIteration
      | _ :: _, None => Failed TypeError
      | _ :: _, Some [] => Failed (Exn IndexError)
      | _ :: _, Some (a :: rest) =>
          match find_warehouse h warehouses (a_warehouse_id a) with
          | None => Failed StopIteration
          | Some depot =>
              let customers :=
                customers_of (a :: rest) (w_id (cell h depot)) in
              let home := (w_lat (cell h depot), w_lon (cell h depot)) in
              match mapM (stop_point customers)
                         (filter (fun i => negb (Nat.eqb i 0)) route) with
              | Ok stops => Done (Some ([home] ++ stops ++ [home]))
              | Raise e => Failed (Exn e)
              end
          end
      end
  | _ => Done None
  end.

(** Lines 91-142. *)
Definition run_dashboard (ui : Widgets) (st : Heap * Session)
  : Heap * Session * outcome (option (list (float * float))) :=
  match select_source_step ui st with
  | (st1, Done _) =>
      match plan_route_step ui st1 with
      | (st2, Done _) => (st2, show_routes_step st2)
      | (st2, Failed e) => (st2, Failed e)
      | (st2, Pending) => (st2, Pending)
      end
  | (st1, Failed e) => (st1, Failed e)
  | (st1, Pending) => (st1, Pending)
  end.
End Dashboard.

(* ================================================================== *)
(** * Specifications *)

(** ** Conditions on the C library

    The values the C standard (Annex F) fixes at zero, and the odd symmetry
    of the sine that the usual implementations have. *)

Record libm_at_zero (L : Libm) : Prop := {
  sin_zero : c_sin L 0 = 0%float;
  cos_zero : c_cos L 0 = 1%float;
  asin_zero : c_asin L 0 = 0%float
}.

Definition sin_odd (L : Libm) : Prop :=
  forall x, c_sin L (- x) = (- c_sin L x)%float.

(** The values the GNU C library (2.36, x86-64) returns at the arguments
    that [haversine_km] reaches between the points (-64.0, -180.0) and
    (64.00000001, 0.0), and the NaN that the C standard prescribes for the
    arc sine of a number above 1. *)
Record libm_near_antipodes (L : Libm) : Prop := {
  sin_half_dphi : c_sin L 0x1.1df46a2589c6fp+0 = 0x1.cc2ebbb5b7ac6p-1%float;
  pow_sin_half_dphi :
    c_pow L 0x1.cc2ebbb5b7ac6p-1 2 = 0x1.9d9bfd8e85824p-1%float;
  cos_phi1 : c_cos L (-0x1.1df46a2529d39p+0) = 0x1.c0e45dabe05c9p-2%float;
  cos_phi2 : c_cos L 0x1.1df46a25e9ba3p+0 = 0x1.c0e45da92e71bp-2%float;
  sin_half_pi : c_sin L 0x1.921fb54442d18p+0 = 1%float;
  asin_above_one : is_nan (c_asin L 0x1.0000000000001p+0) = true
}.

(** A C library made of the first-order approximations [sin x = x],
    [cos x = 1], [asin x = x]: an instance on which the conditions above
    hold and the functions compute. *)
Definition small_angle_libm : Libm :=
  {| c_sin := fun x => x;
     c_cos := fun _ => 1%float;
     c_asin := fun x => x;
     c_pow := fun x _ => (x * x)%float |}.

(** Latitude in [-90, 90] and longitude in [-180, 180]. *)
Definition valid_coordinates (lat lon : float) : bool :=
  ((-90 <=? lat) && (lat <=? 90) && (-180 <=? lon) && (lon <=? 180))%float.

(** A C library with the values of [libm_near_antipodes], the arc sine
    undefined above 1, and the first-order approximations elsewhere. *)
Definition sampled_libm : Libm :=
  {| c_sin := fun x =>
       if (x =? 0x1.1df46a2589c6fp+0)%float then 0x1.cc2ebbb5b7ac6p-1%float
       else if (x =? 0x1.921fb54442d18p+0)%float then 1%float
       else x;
     c_cos := fun x =>
       if (x =? -0x1.1df46a2529d39p+0)%float then 0x1.c0e45dabe05c9p-2%float
       else if (x =? 0x1.1df46a25e9ba3p+0)%float then 0x1.c0e45da92e71bp-2%float
       else 1%float;
     c_asin := fun x => if (1 <? abs x)%float then nan else x;
     c_pow := fun x _ => (x * x)%float |}.

(** ** The heap *)

(** The fields the engine never writes. *)
Definition same_static (w w' : Warehouse) : Prop :=
  w_id w' = w_id w /\ w_name w' = w_name w /\ w_lat w' = w_lat w
  /\ w_lon w' = w_lon w /\ w_unit_cost w' = w_unit_cost w.

Definition heap_static (h h' : Heap) : Prop :=
  next h' = next h /\ forall r, same_static (cell h r) (cell h' r).

(** Every reference of the list is an object of the heap. *)
Definition allocated (h : Heap) (ws : list ref) : Prop :=
  Forall (fun r => r < next h) ws.

(** [h'] is [h] with the inventory of [w] decremented by [qty]. *)
Definition decremented (h : Heap) (w : ref) (qty : Z) (h' : Heap) : Prop :=
  next h' = next h
  /\ w_inventory (cell h' w) = (w_inventory (cell h w) - qty)%Z
  /\ same_static (cell h w) (cell h' w)
  /\ forall r, r <> w -> cell h' r = cell h r.

Definition untouched (h h' : Heap) : Prop :=
  next h' = next h /\ forall r, cell h' r = cell h r.

(** [cs] is a copy of [ws] made on top of a heap whose first free reference
    was [n]: fresh objects with the contents of the originals. *)
Definition copy_of (n : ref) (h : Heap) (ws : list ref) (h' : Heap)
    (cs : list ref) : Prop :=
  Forall2 (fun r c => n <= c < next h' /\ cell h' c = cell h r) ws cs.

(** ** The candidates of an order *)

Definition stocked (h : Heap) (qty : Z) (c : float * ref) : Prop :=
  (qty <= w_inventory (cell h (snd c)))%Z.

Definition tie (k : float) (c : float * ref) : bool := (fst c =? k)%float.

(** [cands] lists the warehouses [whs] with their distances to [o], by
    ascending distance, warehouses at the same distance in the order of
    [whs]. *)
Definition sorted_candidates (L : Libm) (h : Heap) (o : Order)
    (whs : list ref) (cands : list (float * ref)) : Prop :=
  exists ds,
    Forall2 (fun w c => snd c = w /\ distance_to L h o w = Ok (fst c)) whs ds
    /\ Permutation ds cands
    /\ StronglySorted (fun x y => (fst x <=? fst y)%float = true) cands
    /\ forall k, filter (tie k) cands = filter (tie k) ds.

(** The choice of lines 25-33 among the candidates [cands]: the heap left,
    the warehouse chosen, its distance and the backorder flag. *)
Inductive selection (h : Heap) (qty : Z) (cands : list (float * ref))
  : Heap -> ref -> float -> bool -> Prop :=
| sel_fulfilled pre d w post h' :
    cands = pre ++ (d, w) :: post ->
    Forall (fun c => ~ stocked h qty c) pre ->
    stocked h qty (d, w) ->
    decremented h w qty h' ->
    selection h qty cands h' w d false
| sel_backorder d w rest h' :
    cands = (d, w) :: rest ->
    Forall (fun c => ~ stocked h qty c) cands ->
    untouched h h' ->
    selection h qty cands h' w d true.

(** One order: [C] describes the candidate list. *)
Definition step (C : Heap -> Order -> list (float * ref) -> Prop)
    (tc bp : float) (h : Heap) (o : Order) (h' : Heap) (a : Assignment)
  : Prop :=
  exists cands w d b fq,
    C h o cands
    /\ selection h (qty_of o) cands h' w d b
    /\ float_of_int (qty_of o) = Ok fq
    /\ a = record tc bp o (cell h' w) d b fq.

(** The orders one after the other, each on the heap the previous one
    left. *)
Inductive run (P : Heap -> Order -> Heap -> Assignment -> Prop)
  : Heap -> list Order -> Heap -> list Assignment -> Prop :=
| run_nil h : run P h [] h []
| run_cons h o h1 a os h2 asgs :
    P h o h1 a -> run P h1 os h2 asgs -> run P h (o :: os) h2 (a :: asgs).

(** The conditions under which no step of the engine raises: every
    distance is computed, and every quantity converts to a float.  The
    candidates are comparable when the distances are numbers. *)
Definition distances_defined (L : Libm) (h : Heap) (ws : list ref)
    (os : list Order) : Prop :=
  forall o r, In o os -> In r ws ->
    exists d, distance_to L h o r = Ok d /\ is_nan d = false.

Definition distances_computed (L : Libm) (h : Heap) (ws : list ref)
    (os : list Order) : Prop :=
  forall o r, In o os -> In r ws -> exists d, distance_to L h o r = Ok d.

Definition quantities_convert (os : list Order) : Prop :=
  forall o, In o os -> exists fq, float_of_int (qty_of o) = Ok fq.

(** What is known of a candidate list whatever the distances are: its
    entries are warehouses of the working list with their distances. *)
Definition annotated_candidates (L : Libm) (hc : Heap) (whs : list ref)
    (h : Heap) (o : Order) (cands : list (float * ref)) : Prop :=
  heap_static hc h
  /\ Forall (fun c => In (snd c) whs /\ distance_to L h o (snd c) = Ok (fst c))
            cands.

(** ** Stock *)

(** The quantity that the assignments [asgs] take from the stock of the
    warehouse whose identifier is [wid]: a backordered assignment takes
    nothing. *)
Fixpoint fulfilled_from (wid : Z) (asgs : list Assignment) : Z :=
  match asgs with
  | [] => 0%Z
  | a :: asgs' =>
      ((if negb (a_backorder a) && (a_warehouse_id a =? wid)%Z
        then a_qty a else 0)
       + fulfilled_from wid asgs')%Z
  end.

Definition total_inventory (h : Heap) (ws : list ref) : Z :=
  fold_right Z.add 0%Z (map (fun r => w_inventory (cell h r)) ws).

(** No two entries of the list carry the same identifier. *)
Definition unique_ids (h : Heap) (ws : list ref) : Prop :=
  NoDup (map (fun r => w_id (cell h r)) ws).

(** A candidate list that holds every warehouse of the working list, each
    with its distance. *)
Definition listed_candidates (L : Libm) (hc : Heap) (whs : list ref)
    (h : Heap) (o : Order) (cands : list (float * ref)) : Prop :=
  annotated_candidates L hc whs h o cands
  /\ Permutation whs (map snd cands).

(** ** What an assignment says of the selection

    Every field of an assignment but the transport cost and the total
    cost. *)
Definition choice (a : Assignment)
  : Z * Z * string * float * float * bool * Z * float * float :=
  (a_order_id a, a_warehouse_id a, a_warehouse_name a, a_dist_km a,
   a_item_cost a, a_backorder a, a_qty a, a_lat a, a_lon a).

Definition map_result {A B} (f : A -> B) (r : result A) : result B :=
  match r with
  | Ok a => Ok (f a)
  | Raise e => Raise e
  end.

(** ** Routes *)

(** [k] is the number of steps after which the chain of [NextVar] values
    that starts at [idx] first meets an end index. *)
Definition first_end (routing : RoutingModel) (solution : Solution)
    (idx k : nat) : Prop :=
  IsEnd routing (Nat.iter k solution idx) = true
  /\ forall j, j < k -> IsEnd routing (Nat.iter j solution idx) = false.

(** The nodes of the first [k + 1] indices of that chain. *)
Definition chain (routing : RoutingModel) (solution : Solution)
    (idx k : nat) : list nat :=
  map (fun j => IndexToNode routing (Nat.iter j solution idx)) (seq 0 (S k)).

(** ** Sessions *)

(** Every assignment names a warehouse of the list. *)
Definition names_warehouses (h : Heap) (ws : list ref)
    (asgs : list Assignment) : Prop :=
  Forall (fun a => exists r, In r ws /\ a_warehouse_id a = w_id (cell h r))
         asgs.

(** A session that holds routes holds assignments, and its assignments name
    warehouses of the module. *)
Definition session_ok (h : Heap) (ws : list ref) (s : Session) : Prop :=
  allocated h ws
  /\ (truthy (s_routes s) = true -> truthy (s_assignments s) = true)
  /\ forall asgs, s_assignments s = Some asgs -> names_warehouses h ws asgs.

(** The select box returns one of its options. *)
Definition selects_an_option (ui : Widgets) : Prop :=
  forall options, options <> [] -> In (selectbox ui options) options.

(** ** Sample data *)

Module Demo.

Definition WH_A : Warehouse := mkWarehouse 1 "WH-A" 28.5 77.25 2 (Some 5%float).
Definition WH_B : Warehouse :=
  mkWarehouse 2 "WH-B" 28.75 77.125 1 (Some 4.5%float).

Definition heap : Heap :=
  {| next := 2; cell := fun r => match r with O => WH_A | _ => WH_B end |}.

Definition warehouses : list ref := [0; 1].

Definition orders : list Order :=
  [ mkOrder 1 28.5 77.25 (Some 1%Z);
    mkOrder 2 28.5 77.25 None;
    mkOrder 3 28.5 77.25 (Some 1%Z);
    mkOrder 4 28.75 77.125 (Some 1%Z) ].

(** One warehouse selling at 0.125 a unit, and one order placed at the
    warehouse. *)
Definition WH_C : Warehouse := mkWarehouse 7 "WH-C" 0 0 10 (Some 0.125%float).
Definition heap_c : Heap := {| next := 1; cell := fun _ => WH_C |}.
Definition order_c : Order := mkOrder 1 0 0 (Some 1%Z).

(** What the engine records for [order_c]. *)
Definition assignment_c : Assignment :=
  record default_transport_cost_per_km default_backorder_penalty
         order_c WH_C 0 false 1.

(** An order and a warehouse at nearly antipodal points, (-64.0, -180.0)
    and (64.00000001, 0.0), and an order of 2^1024 units at [WH_C]. *)
Definition WH_N : Warehouse :=
  mkWarehouse 9 "WH-N" 0x1.00000000abcc7p+6 0 10 (Some 5%float).
Definition heap_n : Heap := {| next := 1; cell := fun _ => WH_N |}.
Definition order_s : Order := mkOrder 1 (-64) (-180) (Some 1%Z).
Definition order_big : Order := mkOrder 2 0 0 (Some (2 ^ 1024)%Z).

(** A depot and a stop at the same two points. *)
Definition depot_s : Location := mkLocation (-64) (-180).
Definition stop_n : Location := mkLocation 0x1.00000000abcc7p+6 0.

(** A depot and two stops. *)
Definition depot : Location := mkLocation 28.5 77.25.
Definition stops : list Location :=
  [mkLocation 28.75 77.125; mkLocation 28.5 77.5].

(** A solver that never finds a solution, and one that sends every vehicle
    from the depot through the stops in order and back. *)
Definition tour_model (n vehicles depot_index : nat) : RoutingModel :=
  {| Start := fun _ => 0; IsEnd := fun idx => Nat.eqb idx n;
     IndexToNode := fun idx => if Nat.eqb idx n then depot_index else idx |}.


Definition touring : Solver :=
  {| model := tour_model; solve := fun _ _ _ => Some S |}.


(** The last of the sample orders. *)
Definition order_4 : Order := mkOrder 4 28.75 77.125 (Some 1%Z).

(** A solver whose answer keeps the vehicle at index 0, which is no end
    index. *)
Definition circling : Solver :=
  {| model := fun _ _ _ =>
       {| Start := fun _ => 0; IsEnd := fun _ => false;
          IndexToNode := fun idx => idx |};
     solve := fun _ _ _ => Some (fun _ => 0) |}.

(** A session before the first run, and a run in which both buttons are
    pressed and the select box is left at its first option. *)
Definition fresh : Session := mkSession None None.

Definition clicks : Widgets :=
  {| select_source := true;
     selectbox := fun options => hd 0%Z options;
     plan_route := true |}.

(** A session that holds one assignment to [WH_A] and a route through its
    only customer, and a run in which nothing is pressed. *)
Definition assignment_a : Assignment :=
  record default_transport_cost_per_km default_backorder_penalty
         (mkOrder 1 28.5 77.25 (Some 1%Z)) WH_A 0 false 1.

Definition planned : Session :=
  mkSession (Some [assignment_a]) (Some [[0; 1; 0]]).

Definition idle : Widgets :=
  {| select_source := false;
     selectbox := fun options => hd 0%Z options;
     plan_route := false |}.

End Demo.

Unset Implicit Arguments.

(* ================================================================== *)
(** * Facts about binary64 arithmetic *)

Module FloatFacts.

Ltac cmp_step :=
  match goal with
  | H : context [Z.compare ?a ?b] |- _ => destruct (Z.compare_spec a b)
  | |- context [Z.compare ?a ?b] => destruct (Z.compare_spec a b)
  | H : context [Pos.compare_cont Eq ?a ?b] |- _ =>
      change (Pos.compare_cont Eq a b) with (Pos.compare a b) in *;
      destruct (Pos.compare_spec a b)
  | |- context [Pos.compare_cont Eq ?a ?b] =>
      change (Pos.compare_cont Eq a b) with (Pos.compare a b) in *;
      destruct (Pos.compare_spec a b)
  end.

Ltac cmp_cases :=
  repeat (cmp_step; subst; cbn [CompOpp] in *; try congruence; try lia).

(** *** The order *)

Lemma SFltb_asym x y : SFltb x y = true -> SFltb y x = false.
Proof.
  unfold SFltb.
  destruct x as [sx|sx| |sx mx ex], y as [sy|sy| |sy my ey]; cbn [SFcompare];
    try (destruct sx); try (destruct sy); try congruence; try reflexivity;
    intros H1; cmp_cases.
Qed.

Lemma SFnlt_trans x y z :
  x <> S754_nan -> y <> S754_nan -> z <> S754_nan ->
  SFltb y x = false -> SFltb z y = false -> SFltb z x = false.
Proof.
  unfold SFltb.
  destruct x as [sx|sx| |sx mx ex], y as [sy|sy| |sy my ey],
           z as [sz|sz| |sz mz ez];
    try congruence; intros _ _ _; cbn [SFcompare];
    try (destruct sx); try (destruct sy); try (destruct sz);
    try congruence; try reflexivity;
    intros H1 H2; cmp_cases.
Qed.

Lemma SFnlt_leb x y :
  x <> S754_nan -> y <> S754_nan -> SFltb y x = false -> SFleb x y = true.
Proof.
  unfold SFltb, SFleb.
  destruct x as [sx|sx| |sx mx ex], y as [sy|sy| |sy my ey];
    try congruence; intros _ _; cbn [SFcompare];
    try (destruct sx); try (destruct sy); try congruence; try reflexivity;
    intros H1; cmp_cases.
Qed.

Lemma SFeqb_ltb x y :
  x <> S754_nan -> y <> S754_nan ->
  SFeqb x y = negb (SFltb x y) && negb (SFltb y x).
Proof.
  unfold SFltb, SFeqb.
  destruct x as [sx|sx| |sx mx ex], y as [sy|sy| |sy my ey];
    try congruence; intros _ _; cbn [SFcompare];
    try (destruct sx); try (destruct sy); try congruence; try reflexivity;
    cmp_cases; try reflexivity.
Qed.

Lemma is_nan_SF x :
  is_nan x = match Prim2SF x with S754_nan => true | _ => false end.
Proof.
  unfold is_nan. rewrite eqb_spec. unfold SFeqb.
  destruct (Prim2SF x) as [s|s| |s m e]; cbn [SFcompare]; try reflexivity.
  - destruct s; reflexivity.
  - destruct s; rewrite Z.compare_refl;
      change (Pos.compare_cont Eq m m) with (Pos.compare m m);
      rewrite Pos.compare_refl; reflexivity.
Qed.

Lemma is_nan_false x : is_nan x = false <-> Prim2SF x <> S754_nan.
Proof.
  rewrite is_nan_SF. destruct (Prim2SF x); split; congruence.
Qed.

Lemma ltb_asym x y : (x <? y)%float = true -> (y <? x)%float = false.
Proof. rewrite !ltb_spec. apply SFltb_asym. Qed.

Lemma nlt_trans x y z :
  is_nan x = false -> is_nan y = false -> is_nan z = false ->
  (y <? x)%float = false -> (z <? y)%float = false -> (z <? x)%float = false.
Proof. rewrite !ltb_spec, !is_nan_false. apply SFnlt_trans. Qed.

Lemma nlt_leb x y :
  is_nan x = false -> is_nan y = false ->
  (y <? x)%float = false -> (x <=? y)%float = true.
Proof. rewrite ltb_spec, leb_spec, !is_nan_false. apply SFnlt_leb. Qed.

Lemma eqb_ltb x y :
  is_nan x = false -> is_nan y = false ->
  (x =? y)%float = negb (x <? y)%float && negb (y <? x)%float.
Proof. rewrite eqb_spec, !ltb_spec, !is_nan_false. apply SFeqb_ltb. Qed.

Lemma eqb_nan_r x k : is_nan k = true -> (x =? k)%float = false.
Proof.
  rewrite is_nan_SF, eqb_spec. unfold SFeqb.
  destruct (Prim2SF k); try discriminate.
  destruct (Prim2SF x); reflexivity.
Qed.

(** *** Classification *)

Lemma is_infinity_SF x :
  is_infinity x
  = match Prim2SF x with S754_infinity _ => true | _ => false end.
Proof.
  unfold is_infinity. rewrite eqb_spec, abs_spec.
  change (Prim2SF infinity) with (S754_infinity false).
  destruct (Prim2SF x) as [s|s| |s m e]; reflexivity.
Qed.

Lemma is_finite_SF x :
  PrimFloat.is_finite x
  = match Prim2SF x with S754_zero _ | S754_finite _ _ _ => true | _ => false end.
Proof.
  unfold PrimFloat.is_finite. rewrite is_nan_SF, is_infinity_SF.
  destruct (Prim2SF x); reflexivity.
Qed.

Lemma eqb_zero_SF x :
  (x =? 0)%float = match Prim2SF x with S754_zero _ => true | _ => false end.
Proof.
  rewrite eqb_spec. change (Prim2SF 0) with (S754_zero false).
  destruct (Prim2SF x) as [s|s| |s m e]; try reflexivity; destruct s; reflexivity.
Qed.

Lemma ltb_zero_SF x :
  (x <? 0)%float
  = match Prim2SF x with
    | S754_infinity s | S754_finite s _ _ => s
    | _ => false
    end.
Proof.
  rewrite ltb_spec. change (Prim2SF 0) with (S754_zero false).
  destruct (Prim2SF x) as [s|s| |s m e]; try reflexivity; destruct s; reflexivity.
Qed.

(** *** Negation *)

Lemma opp_invol x : (- - x = x)%float.
Proof.
  apply Prim2SF_inj. rewrite !opp_spec.
  destruct (Prim2SF x); cbn; rewrite ?negb_involutive; reflexivity.
Qed.

Lemma abs_opp x : abs (- x) = abs x.
Proof.
  apply Prim2SF_inj. rewrite !abs_spec, opp_spec.
  destruct (Prim2SF x); reflexivity.
Qed.

Lemma is_nan_opp x : is_nan (- x) = is_nan x.
Proof. rewrite !is_nan_SF, opp_spec. destruct (Prim2SF x); reflexivity. Qed.

Lemma is_infinity_opp x : is_infinity (- x) = is_infinity x.
Proof. rewrite !is_infinity_SF, opp_spec. destruct (Prim2SF x); reflexivity. Qed.

Lemma is_finite_opp x : PrimFloat.is_finite (- x) = PrimFloat.is_finite x.
Proof. unfold PrimFloat.is_finite. rewrite is_nan_opp, is_infinity_opp. reflexivity. Qed.

Lemma eqb_zero_opp x : (- x =? 0)%float = (x =? 0)%float.
Proof. rewrite !eqb_zero_SF, opp_spec. destruct (Prim2SF x); reflexivity. Qed.

Lemma opp_nan x : is_nan x = true -> (- x)%float = x.
Proof.
  rewrite is_nan_SF. intros H. apply Prim2SF_inj. rewrite opp_spec.
  destruct (Prim2SF x); try discriminate. reflexivity.
Qed.

(** The absolute value taken by [float_pow] does not see the sign. *)
Lemma abs_choice_opp x :
  is_nan x = false -> (x =? 0)%float = false ->
  (if (- x <? 0)%float then (- - x)%float else (- x)%float)
  = (if (x <? 0)%float then (- x)%float else x).
Proof.
  rewrite is_nan_SF, eqb_zero_SF, !ltb_zero_SF, opp_spec, opp_invol.
  destruct (Prim2SF x) as [s|s| |s m e]; try discriminate; intros _ _;
    destruct s; reflexivity.
Qed.

Lemma binary_round_aux_opp s m e l :
  binary_round_aux prec emax (negb s) m e l
  = SFopp (binary_round_aux prec emax s m e l).
Proof.
  unfold binary_round_aux.
  destruct (shr_fexp prec emax m e l) as [mrs' e'].
  destruct (shr_fexp prec emax _ e' loc_Exact) as [mrs'' e''].
  destruct (shr_m mrs''); try reflexivity.
  destruct (e'' <=? emax - prec)%Z; reflexivity.
Qed.

Lemma binary_round_opp s m e :
  binary_round prec emax (negb s) m e = SFopp (binary_round prec emax s m e).
Proof.
  unfold binary_round.
  destruct (shl_align m e _) as [mz ez]. apply binary_round_aux_opp.
Qed.

Lemma binary_normalize_opp m e :
  m <> 0%Z ->
  binary_normalize prec emax (- m) e false
  = SFopp (binary_normalize prec emax m e false).
Proof.
  destruct m; intros H; [congruence| |]; simpl.
  - apply (binary_round_opp false).
  - rewrite <- (binary_round_opp true). reflexivity.
Qed.

Lemma xorb_negb_l a b : xorb (negb a) b = negb (xorb a b).
Proof. destruct a, b; reflexivity. Qed.

Lemma mul_comm x y : (x * y = y * x)%float.
Proof.
  apply Prim2SF_inj. rewrite !mul_spec. unfold SF64mul.
  destruct (Prim2SF x) as [sx|sx| |sx mx ex],
           (Prim2SF y) as [sy|sy| |sy my ey]; simpl;
    rewrite ?(xorb_comm sx sy); try reflexivity.
  rewrite Pos.mul_comm, Z.add_comm. reflexivity.
Qed.

Lemma mul_opp_l x y : (- x * y = - (x * y))%float.
Proof.
  apply Prim2SF_inj. rewrite opp_spec, !mul_spec, opp_spec. unfold SF64mul.
  destruct (Prim2SF x) as [sx|sx| |sx mx ex],
           (Prim2SF y) as [sy|sy| |sy my ey]; simpl;
    rewrite ?xorb_negb_l; try reflexivity.
  apply binary_round_aux_opp.
Qed.

Lemma div_opp_l x y : (- x / y = - (x / y))%float.
Proof.
  apply Prim2SF_inj. rewrite opp_spec, !div_spec, opp_spec. unfold SF64div.
  destruct (Prim2SF x) as [sx|sx| |sx mx ex],
           (Prim2SF y) as [sy|sy| |sy my ey]; simpl;
    rewrite ?xorb_negb_l; try reflexivity.
  destruct (SFdiv_core_binary prec emax (Z.pos mx) ex (Z.pos my) ey)
    as [[mz ez] lz].
  apply binary_round_aux_opp.
Qed.

(** *** Subtraction *)

Lemma SFsub_swap x y :
  SFsub prec emax y x = SFopp (SFsub prec emax x y)
  \/ (SFsub prec emax y x = S754_zero false
      /\ SFsub prec emax x y = S754_zero false).
Proof.
  destruct x as [sx|sx| |sx mx ex], y as [sy|sy| |sy my ey];
    try (destruct sx, sy; simpl; auto; fail);
    try (destruct sx; simpl; auto; fail);
    try (destruct sy; simpl; auto; fail);
    try (simpl; auto; fail).
  cbn [SFsub]. rewrite (Z.min_comm ey ex).
  set (a := cond_Zopp sx _). set (b := cond_Zopp sy _).
  destruct (Z.eq_dec (a - b) 0) as [E|E].
  - right. replace (b - a)%Z with 0%Z by lia. rewrite E. split; reflexivity.
  - left. replace (b - a)%Z with (- (a - b))%Z by lia.
    apply binary_normalize_opp; exact E.
Qed.

Lemma sub_swap x y :
  (y - x = - (x - y))%float \/ ((y - x = 0)%float /\ (x - y = 0)%float).
Proof.
  destruct (SFsub_swap (Prim2SF x) (Prim2SF y)) as [H|[H1 H2]].
  - left. apply Prim2SF_inj. rewrite opp_spec, !sub_spec. exact H.
  - right. split; apply Prim2SF_inj; rewrite sub_spec; [exact H1|exact H2].
Qed.

Lemma sub_diag x : PrimFloat.is_finite x = true -> (x - x = 0)%float.
Proof.
  rewrite is_finite_SF. intros H. apply Prim2SF_inj. rewrite sub_spec.
  change (Prim2SF 0) with (S754_zero false). unfold SF64sub.
  destruct (Prim2SF x) as [s|s| |s m e]; try discriminate.
  - destruct s; reflexivity.
  - cbn [SFsub]. rewrite Z.sub_diag. reflexivity.
Qed.

(** *** Zero *)

Lemma zero_plus_finite_times_zero y :
  PrimFloat.is_finite y = true -> (0 + y * 0 = 0)%float.
Proof.
  rewrite is_finite_SF. intros H. apply Prim2SF_inj.
  rewrite add_spec, mul_spec. change (Prim2SF 0) with (S754_zero false).
  destruct (Prim2SF y) as [s|s| |s m e]; try discriminate;
    destruct s; reflexivity.
Qed.

Lemma is_finite_mul_l x y :
  PrimFloat.is_finite (x * y) = true -> PrimFloat.is_finite x = true.
Proof.
  rewrite !is_finite_SF, mul_spec. unfold SF64mul.
  destruct (Prim2SF x) as [sx|sx| |sx mx ex],
           (Prim2SF y) as [sy|sy| |sy my ey]; simpl; congruence.
Qed.

Lemma is_finite_mul_r x y :
  PrimFloat.is_finite (x * y) = true -> PrimFloat.is_finite y = true.
Proof. rewrite mul_comm. apply is_finite_mul_l. Qed.

End FloatFacts.

(* ================================================================== *)
(** * Facts about the distance *)

Section HaversineFacts.
Variable L : Libm.

Lemma math_1_raise f x e : math_1 f x = Raise e -> e = ValueError.
Proof.
  unfold math_1.
  destruct (is_nan (f x) && negb (is_nan x)); [congruence|].
  destruct (is_infinity (f x) && PrimFloat.is_finite x); congruence.
Qed.

Lemma math_1_finite f x :
  PrimFloat.is_finite (f x) = true -> math_1 f x = Ok (f x).
Proof.
  unfold math_1, PrimFloat.is_finite at 1. intros H.
  apply negb_true_iff, orb_false_iff in H as [-> ->]. reflexivity.
Qed.

Lemma math_1_odd f x :
  f (- x)%float = (- f x)%float ->
  math_1 f (- x)
  = match math_1 f x with Ok r => Ok (- r)%float | Raise e => Raise e end.
Proof.
  intros H. unfold math_1.
  rewrite H, !FloatFacts.is_nan_opp, FloatFacts.is_infinity_opp,
    FloatFacts.is_finite_opp.
  destruct (is_nan (f x) && negb (is_nan x)); [reflexivity|].
  destruct (is_infinity (f x) && PrimFloat.is_finite x); reflexivity.
Qed.

(** [(-x) ** 2] is [x ** 2]: [float_pow] hands the absolute value of the
    base to the C library. *)
Lemma pow2_opp x : pow2 L (- x) = pow2 L x.
Proof.
  unfold pow2.
  rewrite FloatFacts.is_nan_opp, FloatFacts.is_infinity_opp,
    FloatFacts.eqb_zero_opp, FloatFacts.abs_opp.
  destruct (is_nan x) eqn:En; [rewrite FloatFacts.opp_nan by exact En; reflexivity|].
  destruct (is_infinity x); [reflexivity|].
  destruct (x =? 0)%float eqn:Ez; [reflexivity|].
  rewrite FloatFacts.abs_choice_opp by assumption. reflexivity.
Qed.

Lemma radians_opp x : radians (- x) = (- radians x)%float.
Proof. apply FloatFacts.mul_opp_l. Qed.

(** The squared sine of half a difference does not depend on the order of
    the two coordinates. *)
Lemma sin_squared_swap {A} x y (k : float -> result A) :
  sin_odd L ->
  (s <- sin L (radians (x - y) / 2) ;; p <- pow2 L s ;; k p)
  = (s <- sin L (radians (y - x) / 2) ;; p <- pow2 L s ;; k p).
Proof.
  intros Hodd.
  destruct (FloatFacts.sub_swap x y) as [E|[E1 E2]];
    [|rewrite E1, E2; reflexivity].
  rewrite E, radians_opp, FloatFacts.div_opp_l.
  unfold sin at 2. rewrite (math_1_odd (c_sin L)) by apply Hodd.
  fold (sin L (radians (x - y) / 2)).
  destruct (sin L (radians (x - y) / 2)) as [s|e]; [|reflexivity].
  cbn [bind]. rewrite pow2_opp. reflexivity.
Qed.

Lemma haversine_km_symmetric lat1 lon1 lat2 lon2 :
  sin_odd L ->
  haversine_km L lat1 lon1 lat2 lon2 = haversine_km L lat2 lon2 lat1 lon1.
Proof.
  intros Hodd. unfold haversine_km.
  rewrite (sin_squared_swap lat1 lat2) by exact Hodd.
  destruct (sin L (radians (lat2 - lat1) / 2)) as [s1|e]; [|reflexivity].
  cbn [bind]. destruct (pow2 L s1) as [p1|e]; [|reflexivity].
  cbn [bind].
  destruct (cos L (radians lat1)) as [c1|e1] eqn:E1,
           (cos L (radians lat2)) as [c2|e2] eqn:E2;
    cbn [bind]; try reflexivity.
  - rewrite (FloatFacts.mul_comm c2 c1).
    rewrite (sin_squared_swap lon1 lon2) by exact Hodd. reflexivity.
  - apply math_1_raise in E1, E2. congruence.
Qed.

(** The distance is [0.0] as soon as both half differences round to zero,
    provided the product of the cosines is finite. *)
Lemma haversine_km_zero lat1 lon1 lat2 lon2 :
  c_sin L 0 = 0%float ->
  c_asin L 0 = 0%float ->
  (radians (lat2 - lat1) / 2)%float = 0%float ->
  (radians (lon2 - lon1) / 2)%float = 0%float ->
  PrimFloat.is_finite (c_cos L (radians lat1) * c_cos L (radians lat2)) = true ->
  haversine_km L lat1 lon1 lat2 lon2 = Ok 0%float.
Proof.
  intros Hs Ha E1 E2 Hc. unfold haversine_km. rewrite E1, E2.
  assert (S0 : sin L 0 = Ok 0%float).
  { unfold sin. rewrite math_1_finite; rewrite Hs; reflexivity. }
  assert (A0 : asin L 0 = Ok 0%float).
  { unfold asin. rewrite math_1_finite; rewrite Ha; reflexivity. }
  rewrite S0. cbn [bind]. change (pow2 L 0) with (Ok 0%float). cbn [bind].
  unfold cos.
  rewrite !math_1_finite
    by eauto using FloatFacts.is_finite_mul_l, FloatFacts.is_finite_mul_r.
  cbn [bind]. rewrite FloatFacts.zero_plus_finite_times_zero by exact Hc.
  change (sqrt 0) with (Ok 0%float). cbn [bind]. rewrite A0. reflexivity.
Qed.

End HaversineFacts.

(* ================================================================== *)
(** * Facts about the sort *)

Section SortFacts.
Context {K A : Type}.
Variable lt : K -> K -> bool.
Variable key : A -> K.
Variable P : K -> Prop.

Hypothesis lt_asym :
  forall a b, P a -> P b -> lt a b = true -> lt b a = false.
Hypothesis nlt_trans :
  forall a b c, P a -> P b -> P c ->
    lt b a = false -> lt c b = false -> lt c a = false.

Local Abbreviation le := (fun x y : A => lt (key y) (key x) = false).
Local Abbreviation eqv k := (fun x : A => negb (lt (key x) k) && negb (lt k (key x))).
Local Abbreviation good := (fun x : A => P (key x)).

Lemma insert_perm x l : Permutation (x :: l) (insert lt key x l).
Proof.
  induction l as [|y l IH]; simpl; [reflexivity|].
  destruct (lt (key y) (key x)); [|reflexivity].
  rewrite perm_swap. apply perm_skip, IH.
Qed.

Lemma sort_perm l : Permutation l (sort lt key l).
Proof.
  induction l as [|x l IH]; simpl; [reflexivity|].
  rewrite <- insert_perm. apply perm_skip, IH.
Qed.

Lemma sort_nil l : sort lt key l = [] -> l = [].
Proof.
  intros H. apply Permutation_nil. rewrite <- H. symmetry. apply sort_perm.
Qed.

Lemma sort_good l : Forall good l -> Forall good (sort lt key l).
Proof.
  intros H. rewrite Forall_forall in *. intros x Hx. apply H.
  eapply Permutation_in; [symmetry; apply sort_perm | exact Hx].
Qed.

Lemma insert_sorted x l :
  P (key x) -> Forall good l ->
  StronglySorted le l -> StronglySorted le (insert lt key x l).
Proof.
  intros Hx Hl Hs. induction Hs as [|y l Hs IH Hy]; simpl.
  - constructor; constructor.
  - inversion Hl as [|? ? Gy Gl]; subst.
    destruct (lt (key y) (key x)) eqn:E.
    + constructor; [apply IH; assumption|].
      rewrite Forall_forall in *. intros z Hz.
      apply (Permutation_in _ (Permutation_sym (insert_perm x l))) in Hz.
      destruct Hz as [<-|Hz]; [|apply Hy; exact Hz].
      apply lt_asym; assumption.
    + constructor; [constructor; assumption|].
      constructor; [exact E|].
      rewrite Forall_forall in *. intros z Hz.
      apply (@nlt_trans (key x) (key y) (key z));
        [exact Hx | exact Gy | apply Gl; exact Hz | exact E | apply Hy; exact Hz].
Qed.

Lemma sort_sorted l : Forall good l -> StronglySorted le (sort lt key l).
Proof.
  induction 1 as [|x l Hx Hl IH]; simpl; [constructor|].
  apply insert_sorted; [exact Hx | apply sort_good; exact Hl | exact IH].
Qed.

Lemma insert_stable k x l :
  P k -> P (key x) -> Forall good l ->
  filter (eqv k) (insert lt key x l) = filter (eqv k) (x :: l).
Proof.
  intros Hk Hx Hl. induction Hl as [|y l Gy Gl IH]; [reflexivity|].
  cbn [insert]. destruct (lt (key y) (key x)) eqn:E; [|reflexivity].
  cbn [filter] in *. rewrite IH.
  destruct (negb (lt (key x) k) && negb (lt k (key x))) eqn:Ex,
           (negb (lt (key y) k) && negb (lt k (key y))) eqn:Ey;
    try reflexivity.
  exfalso.
  apply andb_prop in Ex as [Ex1 Ex2]. apply andb_prop in Ey as [Ey1 Ey2].
  apply negb_true_iff in Ex1, Ex2, Ey1, Ey2.
  rewrite (@nlt_trans (key x) k (key y) Hx Hk Gy Ex2 Ey1) in E. discriminate.
Qed.

Lemma sort_stable k l :
  P k -> Forall good l ->
  filter (eqv k) (sort lt key l) = filter (eqv k) l.
Proof.
  intros Hk. induction 1 as [|x l Hx Hl IH]; [reflexivity|].
  cbn [sort]. rewrite insert_stable by (auto using sort_good).
  cbn [filter]. rewrite IH. reflexivity.
Qed.

End SortFacts.

(* ================================================================== *)
(** * Facts about the engine *)

Lemma sort_distances_perm ds : Permutation ds (sort_distances ds).
Proof. apply sort_perm. Qed.

Lemma sort_distances_sorted ds :
  Forall (fun c => is_nan (fst c) = false) ds ->
  StronglySorted (fun x y => (fst x <=? fst y)%float = true)
                 (sort_distances ds).
Proof.
  intros Hn.
  assert (Hs : StronglySorted
                 (fun x y : float * ref => (fst y <? fst x)%float = false)
                 (sort_distances ds)).
  { apply (@sort_sorted _ _ PrimFloat.ltb fst (fun k => is_nan k = false));
      [ intros a b _ _; apply FloatFacts.ltb_asym
      | intros a b c; apply FloatFacts.nlt_trans
      | exact Hn ]. }
  assert (Hg : Forall (fun c => is_nan (fst c) = false) (sort_distances ds)).
  { rewrite Forall_forall in *. intros c Hc. apply Hn.
    eapply Permutation_in; [symmetry; apply sort_distances_perm | exact Hc]. }
  clear Hn. induction Hs as [|x l Hs IH Hx]; [constructor|].
  inversion Hg as [|? ? Gx Gl]; subst.
  constructor; [apply IH; exact Gl|].
  rewrite Forall_forall in *. intros y Hy.
  apply FloatFacts.nlt_leb; [exact Gx | apply Gl; exact Hy | apply Hx; exact Hy].
Qed.

Lemma sort_distances_stable ds k :
  Forall (fun c => is_nan (fst c) = false) ds ->
  filter (tie k) (sort_distances ds) = filter (tie k) ds.
Proof.
  intros Hn. destruct (is_nan k) eqn:Ek.
  - assert (E : forall l : list (float * ref), filter (tie k) l = []).
    { induction l as [|c l IH]; [reflexivity|]. cbn [filter].
      unfold tie at 1. rewrite FloatFacts.eqb_nan_r by exact Ek. exact IH. }
    rewrite !E. reflexivity.
  - pose proof (@sort_stable _ _ PrimFloat.ltb fst
                  (fun k => is_nan k = false)
                  (fun a b c => @FloatFacts.nlt_trans a b c) k ds Ek Hn)
      as Hst.
    assert (Hg : Forall (fun c => is_nan (fst c) = false) (sort_distances ds)).
    { rewrite Forall_forall in *. intros c Hc. apply Hn.
      eapply Permutation_in; [symmetry; apply sort_distances_perm | exact Hc]. }
    assert (E : forall l : list (float * ref),
               Forall (fun c => is_nan (fst c) = false) l ->
               filter (tie k) l
               = filter (fun x => negb (fst x <? k)%float
                                  && negb (k <? fst x)%float) l).
    { intros l Hl. apply filter_ext_in. intros c Hc. unfold tie.
      rewrite Forall_forall in Hl.
      apply FloatFacts.eqb_ltb; [apply Hl; exact Hc | exact Ek]. }
    rewrite (E _ Hg), (E _ Hn). exact Hst.
Qed.

(** ** The heap *)

Lemma same_static_refl w : same_static w w.
Proof. repeat split. Qed.

Lemma same_static_trans w1 w2 w3 :
  same_static w1 w2 -> same_static w2 w3 -> same_static w1 w3.
Proof.
  unfold same_static. intros (A1 & A2 & A3 & A4 & A5) (B1 & B2 & B3 & B4 & B5).
  repeat split; congruence.
Qed.

Lemma same_static_set_inventory w n : same_static w (set_inventory w n).
Proof. repeat split. Qed.

Lemma heap_static_refl h : heap_static h h.
Proof. split; [reflexivity | intros r; apply same_static_refl]. Qed.

Lemma heap_static_trans h1 h2 h3 :
  heap_static h1 h2 -> heap_static h2 h3 -> heap_static h1 h3.
Proof.
  intros [N1 S1] [N2 S2]. split; [congruence|].
  intros r. eapply same_static_trans; [apply S1 | apply S2].
Qed.

Lemma decremented_static h w qty h' : decremented h w qty h' -> heap_static h h'.
Proof.
  intros (N & _ & S & F). split; [exact N|]. intros r.
  destruct (Nat.eq_dec r w) as [->|Hr]; [exact S|].
  rewrite (F r Hr). apply same_static_refl.
Qed.

Lemma untouched_static h h' : untouched h h' -> heap_static h h'.
Proof.
  intros [N F]. split; [exact N|]. intros r. rewrite F. apply same_static_refl.
Qed.

Lemma store_decremented h w qty :
  decremented h w qty
    (store h w (set_inventory (cell h w) (w_inventory (cell h w) - qty))).
Proof.
  unfold decremented, store; cbn. rewrite Nat.eqb_refl. cbn.
  repeat split. intros r Hr.
  apply Nat.eqb_neq in Hr. rewrite Hr. reflexivity.
Qed.

Lemma selection_static h qty cands h' w d b :
  selection h qty cands h' w d b -> heap_static h h'.
Proof.
  intros [ | ]; eauto using decremented_static, untouched_static.
Qed.

(** ** The scan of the candidates *)

Lemma scan_spec ds qty h :
  (exists pre d w post,
      ds = pre ++ (d, w) :: post
      /\ Forall (fun c => ~ stocked h qty c) pre
      /\ stocked h qty (d, w)
      /\ scan ds qty h
         = (store h w (set_inventory (cell h w) (w_inventory (cell h w) - qty)),
            Ok (Some (w, d))))
  \/ (Forall (fun c => ~ stocked h qty c) ds /\ scan ds qty h = (h, Ok None)).
Proof.
  induction ds as [|[d w] ds IH]; cbn [scan].
  - right. split; [constructor | reflexivity].
  - destruct (qty <=? w_inventory (cell h w))%Z eqn:E.
    + left. exists [], d, w, ds. repeat split; [constructor|].
      unfold stocked. cbn. apply Z.leb_le. exact E.
    + assert (Hn : ~ stocked h qty (d, w)).
      { unfold stocked. cbn. apply Z.leb_gt in E. lia. }
      destruct IH as [(pre & d' & w' & post & -> & Hp & Hs & Hr)|[Hall Hr]].
      * left. exists ((d, w) :: pre), d', w', post.
        repeat split; [constructor; assumption | exact Hs | exact Hr].
      * right. split; [constructor; assumption | exact Hr].
Qed.

Lemma scan_selection ds qty h :
  ds <> [] ->
  exists h' found w d b,
    scan ds qty h = (h', Ok found)
    /\ fallback ds found = Ok (w, d, b)
    /\ selection h qty ds h' w d b.
Proof.
  intros Hne.
  destruct (scan_spec ds qty h)
    as [(pre & d & w & post & E & Hp & Hs & Hr)|[Hall Hr]].
  - exists (store h w (set_inventory (cell h w) (w_inventory (cell h w) - qty))),
      (Some (w, d)), w, d, false.
    repeat split; [exact Hr|].
    eapply sel_fulfilled; eauto using store_decremented.
  - destruct ds as [|[d w] rest]; [congruence|].
    exists h, None, w, d, true. repeat split; [exact Hr|].
    eapply sel_backorder; [reflexivity | exact Hall | split; reflexivity].
Qed.

Lemma scan_frame ds qty h :
  next (fst (scan ds qty h)) = next h
  /\ forall r, ~ In r (map snd ds) -> cell (fst (scan ds qty h)) r = cell h r.
Proof.
  destruct (scan_spec ds qty h)
    as [(pre & d & w & post & E & _ & _ & ->)|[_ ->]]; cbn [fst].
  - split; [reflexivity|]. intros r Hr. cbn.
    destruct (Nat.eqb r w) eqn:Er; [|reflexivity].
    apply Nat.eqb_eq in Er. subst r. exfalso. apply Hr. subst ds.
    rewrite map_app, in_app_iff. right. left. reflexivity.
  - split; reflexivity.
Qed.

(** ** The distances *)

Section EngineFacts.
Variable L : Libm.

Lemma distance_to_static h h' o r :
  heap_static h h' -> distance_to L h' o r = distance_to L h o r.
Proof.
  intros [_ S]. destruct (S r) as (_ & _ & Hlat & Hlon & _).
  unfold distance_to. rewrite Hlat, Hlon. reflexivity.
Qed.

Lemma distances_of_static h h' o whs :
  heap_static h h' -> distances_of L h' o whs = distances_of L h o whs.
Proof.
  intros S. unfold distances_of.
  induction whs as [|w whs IH]; [reflexivity|].
  cbn [mapM]. rewrite IH, (distance_to_static h h' o w S). reflexivity.
Qed.

Lemma distances_of_ok (Q : float -> Prop) h o whs :
  (forall r, In r whs -> exists d, distance_to L h o r = Ok d /\ Q d) ->
  exists ds,
    distances_of L h o whs = Ok ds /\ Forall (fun c => Q (fst c)) ds.
Proof.
  unfold distances_of. induction whs as [|w whs IH]; intros H.
  - exists []. split; [reflexivity | constructor].
  - destruct (H w (or_introl eq_refl)) as (d & Hd & Hn).
    destruct IH as (ds & Hds & Hns); [intros r Hr; apply H; right; exact Hr|].
    exists ((d, w) :: ds). cbn [mapM]. rewrite Hd, Hds.
    split; [reflexivity | constructor; assumption].
Qed.

Lemma distances_of_spec h o whs ds :
  distances_of L h o whs = Ok ds ->
  Forall2 (fun w c => snd c = w /\ distance_to L h o w = Ok (fst c)) whs ds.
Proof.
  unfold distances_of. revert ds.
  induction whs as [|w whs IH]; intros ds; cbn [mapM].
  - intros [= <-]. constructor.
  - destruct (distance_to L h o w) as [d|e] eqn:Hd; [|discriminate]. cbn.
    destruct (mapM _ whs) as [ds'|e]; [|discriminate]. cbn.
    intros [= <-]. constructor; [split; [reflexivity | exact Hd] | apply IH; reflexivity].
Qed.

Lemma distances_of_refs h o whs ds :
  distances_of L h o whs = Ok ds -> map snd ds = whs.
Proof.
  intros H. apply distances_of_spec in H.
  induction H as [|w c whs ds [Hc _] _ IH]; [reflexivity|].
  cbn. rewrite Hc, IH. reflexivity.
Qed.

Lemma sorted_candidates_sort h o whs ds :
  distances_of L h o whs = Ok ds ->
  Forall (fun c => is_nan (fst c) = false) ds ->
  sorted_candidates L h o whs (sort_distances ds).
Proof.
  intros Hds Hn. exists ds.
  split; [apply distances_of_spec; exact Hds|].
  split; [apply sort_distances_perm|].
  split; [apply sort_distances_sorted; exact Hn|].
  intros k. apply sort_distances_stable. exact Hn.
Qed.

(** ** One order *)

Lemma assign_order_spec (C : Heap -> Order -> list (float * ref) -> Prop)
    whs tc bp o h ds fq :
  whs <> [] ->
  distances_of L h o whs = Ok ds ->
  C h o (sort_distances ds) ->
  float_of_int (qty_of o) = Ok fq ->
  exists h' a,
    assign_order L whs tc bp o h = (h', Ok a)
    /\ step C tc bp h o h' a.
Proof.
  intros Hne Hds HC Hq.
  assert (Hs : sort_distances ds <> []).
  { intros E. apply sort_nil in E. subst ds.
    apply distances_of_refs in Hds. cbn in Hds. congruence. }
  destruct (scan_selection (sort_distances ds) (qty_of o) h Hs)
    as (h' & found & w & d & b & Hscan & Hfb & Hsel).
  exists h', (record tc bp o (cell h' w) d b fq).
  split.
  - unfold assign_order, bindM, get_heap, lift, read, ret.
    rewrite Hds, Hscan, Hfb, Hq. reflexivity.
  - exists (sort_distances ds), w, d, b, fq. repeat split; assumption.
Qed.

Lemma step_static C tc bp h o h' a : step C tc bp h o h' a -> heap_static h h'.
Proof.
  intros (cands & w & d & b & fq & _ & Hsel & _). eapply selection_static, Hsel.
Qed.

(** ** The loop *)

Lemma assign_loop_spec (C : Heap -> Order -> list (float * ref) -> Prop)
    whs tc bp hc os :
  whs <> [] ->
  (forall o, In o os ->
     exists ds, distances_of L hc o whs = Ok ds
                /\ forall h, heap_static hc h -> C h o (sort_distances ds)) ->
  quantities_convert os ->
  forall h, heap_static hc h ->
  exists h' asgs,
    assign_loop L whs tc bp os h = (h', Ok asgs)
    /\ run (step C tc bp) h os h' asgs.
Proof.
  intros Hne. induction os as [|o os IH]; intros Hd Hq h Hh.
  - exists h, []. split; [reflexivity | constructor].
  - destruct (Hd o (or_introl eq_refl)) as (ds & Hds & HC).
    destruct (Hq o (or_introl eq_refl)) as (fq & Hfq).
    rewrite <- (distances_of_static hc h o whs Hh) in Hds.
    destruct (@assign_order_spec C whs tc bp o h ds fq Hne Hds (HC h Hh) Hfq)
      as (h1 & a & Ha & Hstep).
    destruct (IH (fun o' Ho' => Hd o' (or_intror Ho'))
                 (fun o' Ho' => Hq o' (or_intror Ho')) h1)
      as (h2 & asgs & Hloop & Hrun).
    { eapply heap_static_trans; [exact Hh | eapply step_static, Hstep]. }
    exists h2, (a :: asgs). split.
    + cbn [assign_loop]. unfold bindM at 1. rewrite Ha.
      unfold bindM at 1. rewrite Hloop. reflexivity.
    + econstructor; eassumption.
Qed.

End EngineFacts.

(** ** The copy *)

Lemma deepcopy_list_frame n ws :
  forall memo h,
    n <= next h ->
    (forall r c, memo_get memo r = Some c -> n <= c) ->
    next h <= next (fst (deepcopy_list ws memo h))
    /\ (forall l, l < next h -> cell (fst (deepcopy_list ws memo h)) l = cell h l)
    /\ Forall (fun c => n <= c) (snd (deepcopy_list ws memo h)).
Proof.
  induction ws as [|r ws IH]; intros memo h Hn Hm; cbn [deepcopy_list].
  - cbn. repeat split; [lia | constructor].
  - destruct (memo_get memo r) as [c|] eqn:Em.
    + specialize (IH memo h Hn Hm).
      destruct (deepcopy_list ws memo h) as [h' cs]. cbn in *.
      destruct IH as (I1 & I2 & I3).
      repeat split; [exact I1 | exact I2 | constructor; eauto].
    + cbn [alloc].
      set (h1 := {| next := S (next h);
                    cell := fun l => if Nat.eqb l (next h) then cell h r
                                     else cell h l |}).
      specialize (IH ((r, next h) :: memo) h1).
      destruct (deepcopy_list ws ((r, next h) :: memo) h1) as [h' cs].
      cbn in *.
      destruct IH as (I1 & I2 & I3); [lia | |].
      { intros r' c'. destruct (Nat.eqb r r'); [intros [= <-]; exact Hn|].
        apply Hm. }
      repeat split; [lia | | constructor; assumption].
      intros l Hl. rewrite I2 by lia.
      destruct (Nat.eqb l (next h)) eqn:E; [|reflexivity].
      apply Nat.eqb_eq in E. lia.
Qed.

Lemma deepcopy_list_copy n h0 ws :
  Forall (fun r => r < n) ws ->
  forall memo h,
    n <= next h ->
    (forall l, l < n -> cell h l = cell h0 l) ->
    (forall r c, memo_get memo r = Some c ->
       n <= c < next h /\ cell h c = cell h0 r) ->
    Forall2 (fun r c => n <= c < next (fst (deepcopy_list ws memo h))
                        /\ cell (fst (deepcopy_list ws memo h)) c = cell h0 r)
            ws (snd (deepcopy_list ws memo h)).
Proof.
  induction 1 as [|r ws Hr Hws IH]; intros memo h Hn Hh Hm;
    cbn [deepcopy_list].
  - constructor.
  - destruct (memo_get memo r) as [c|] eqn:Em.
    + specialize (IH memo h Hn Hh Hm).
      pose proof (deepcopy_list_frame n ws memo h Hn
                    (fun r c E => proj1 (proj1 (Hm r c E)))) as (F1 & F2 & _).
      destruct (deepcopy_list ws memo h) as [h' cs]. cbn in *.
      destruct (Hm r c Em) as ([Hc1 Hc2] & Hc3).
      constructor; [|exact IH].
      split; [lia|]. rewrite F2 by lia. exact Hc3.
    + cbn [alloc].
      set (h1 := {| next := S (next h);
                    cell := fun l => if Nat.eqb l (next h) then cell h r
                                     else cell h l |}).
      assert (Hm1 : forall r' c', memo_get ((r, next h) :: memo) r' = Some c' ->
                      n <= c' < next h1 /\ cell h1 c' = cell h0 r').
      { intros r' c'. cbn [memo_get].
        destruct (Nat.eqb r r') eqn:E.
        - apply Nat.eqb_eq in E. subst r'. intros [= <-]. cbn.
          rewrite Nat.eqb_refl. split; [lia | apply Hh; exact Hr].
        - intros Hg. destruct (Hm r' c' Hg) as ([A1 A2] & A3). cbn.
          split; [lia|].
          destruct (Nat.eqb c' (next h)) eqn:E'; [|exact A3].
          apply Nat.eqb_eq in E'. lia. }
      assert (Hh1 : forall l, l < n -> cell h1 l = cell h0 l).
      { intros l Hl. cbn. destruct (Nat.eqb l (next h)) eqn:E; [|apply Hh; exact Hl].
        apply Nat.eqb_eq in E. lia. }
      assert (Hn1 : n <= next h1) by (cbn; lia).
      specialize (IH ((r, next h) :: memo) h1 Hn1 Hh1 Hm1).
      pose proof (deepcopy_list_frame n ws ((r, next h) :: memo) h1 Hn1
                    (fun r c E => proj1 (proj1 (Hm1 r c E)))) as (F1 & F2 & _).
      destruct (deepcopy_list ws ((r, next h) :: memo) h1) as [h' cs].
      cbn [fst snd] in *.
      constructor; [|exact IH].
      split; [cbn in F1; lia|].
      rewrite F2 by (cbn; lia). cbn. rewrite Nat.eqb_refl. apply Hh. exact Hr.
Qed.

Lemma deepcopy_list_length ws :
  forall memo h,
    List.length (snd (deepcopy_list ws memo h)) = List.length ws.
Proof.
  induction ws as [|r ws IH]; intros memo h; cbn [deepcopy_list];
    [reflexivity|].
  destruct (memo_get memo r).
  - specialize (IH memo h). destruct (deepcopy_list ws memo h). cbn in *.
    congruence.
  - cbn [alloc].
    match goal with |- context [deepcopy_list ws ?m ?h2] =>
      specialize (IH m h2); destruct (deepcopy_list ws m h2) end.
    cbn in *. congruence.
Qed.

Lemma deepcopy_spec h ws :
  exists hc whs,
    deepcopy ws h = (hc, Ok whs)
    /\ next h <= next hc
    /\ (forall l, l < next h -> cell hc l = cell h l)
    /\ Forall (fun c => next h <= c) whs
    /\ List.length whs = List.length ws
    /\ (allocated h ws -> copy_of (next h) h ws hc whs).
Proof.
  unfold deepcopy.
  pose proof (deepcopy_list_frame (next h) ws [] h (le_n _)
                (fun r c (E : memo_get [] r = Some c) =>
                   ltac:(discriminate))) as (F1 & F2 & F3).
  pose proof (fun Ha => deepcopy_list_copy (next h) h ws Ha [] h (le_n _)
                (fun l _ => eq_refl)
                (fun r c (E : memo_get [] r = Some c) =>
                   ltac:(discriminate))) as Hc.
  pose proof (deepcopy_list_length ws [] h) as Hlen.
  destruct (deepcopy_list ws [] h) as [hc whs]. cbn [fst snd] in *.
  exists hc, whs. repeat split; try assumption.
Qed.

(** ** What the engine writes *)

Section EngineFrame.
Variable L : Libm.

Lemma assign_order_frame whs tc bp o h :
  next (fst (assign_order L whs tc bp o h)) = next h
  /\ forall r, ~ In r whs ->
       cell (fst (assign_order L whs tc bp o h)) r = cell h r.
Proof.
  unfold assign_order, bindM, get_heap, lift, read, ret.
  destruct (distances_of L h o whs) as [ds|e] eqn:Hds;
    [|split; reflexivity].
  pose proof (scan_frame (sort_distances ds) (qty_of o) h) as [F1 F2].
  destruct (scan (sort_distances ds) (qty_of o) h) as [h1 [found|e]];
    cbn [fst] in *.
  - assert (E : forall r, ~ In r whs -> cell h1 r = cell h r).
    { intros r Hr. apply F2. intros Hin. apply Hr.
      rewrite <- (distances_of_refs L h o whs ds Hds).
      eapply Permutation_in; [|exact Hin].
      apply Permutation_map. symmetry. apply sort_distances_perm. }
    destruct (fallback (sort_distances ds) found) as [[[w d] b]|e];
      [|split; assumption].
    destruct (float_of_int (qty_of o)); split; assumption.
  - split; [exact F1|]. intros r Hr. apply F2. intros Hin. apply Hr.
    rewrite <- (distances_of_refs L h o whs ds Hds).
    eapply Permutation_in; [|exact Hin].
    apply Permutation_map. symmetry. apply sort_distances_perm.
Qed.

Lemma assign_loop_cons whs tc bp o os h :
  assign_loop L whs tc bp (o :: os) h
  = match assign_order L whs tc bp o h with
    | (h1, Ok a) =>
        match assign_loop L whs tc bp os h1 with
        | (h2, Ok rest) => (h2, Ok (a :: rest))
        | (h2, Raise e) => (h2, Raise e)
        end
    | (h1, Raise e) => (h1, Raise e)
    end.
Proof. reflexivity. Qed.

Lemma assign_loop_frame whs tc bp os :
  forall h,
    next (fst (assign_loop L whs tc bp os h)) = next h
    /\ forall r, ~ In r whs ->
         cell (fst (assign_loop L whs tc bp os h)) r = cell h r.
Proof.
  induction os as [|o os IH]; intros h.
  - split; reflexivity.
  - rewrite assign_loop_cons.
    pose proof (assign_order_frame whs tc bp o h) as [F1 F2].
    destruct (assign_order L whs tc bp o h) as [h1 [a|e]]; cbn [fst] in *;
      [|split; assumption].
    specialize (IH h1) as [G1 G2].
    destruct (assign_loop L whs tc bp os h1) as [h2 [asgs|e]];
      cbn [fst] in *.
    + split; [congruence|]. intros r Hr. rewrite G2, F2 by exact Hr.
      reflexivity.
    + split; [congruence|]. intros r Hr. rewrite G2, F2 by exact Hr.
      reflexivity.
Qed.

End EngineFrame.

(** ** The whole run *)

Lemma copy_of_origin n h0 ws hc whs c :
  copy_of n h0 ws hc whs -> In c whs ->
  exists r, In r ws /\ cell hc c = cell h0 r.
Proof.
  intros Hco Hc. induction Hco as [|r c' ws whs [_ E] _ IH]; [destruct Hc|].
  destruct Hc as [->|Hc]; [exists r; split; [left; reflexivity | exact E]|].
  destruct (IH Hc) as (r' & Hr' & E'). exists r'.
  split; [right|]; assumption.
Qed.

Section EngineRun.
Variable L : Libm.
Variable Q : float -> Prop.
Variable C : Heap -> list ref -> Heap -> Order -> list (float * ref) -> Prop.

Hypothesis candidates_ok :
  forall hc whs h o ds,
    heap_static hc h ->
    distances_of L h o whs = Ok ds ->
    Forall (fun c => Q (fst c)) ds ->
    C hc whs h o (sort_distances ds).

Lemma engine_run h0 ws os tc bp :
  ws <> [] ->
  allocated h0 ws ->
  (forall o r, In o os -> In r ws ->
     exists d, distance_to L h0 o r = Ok d /\ Q d) ->
  quantities_convert os ->
  exists hc whs h' asgs,
    deepcopy ws h0 = (hc, Ok whs)
    /\ copy_of (next h0) h0 ws hc whs
    /\ assign_orders_to_warehouses L ws os tc bp h0 = (h', Ok asgs)
    /\ run (step (C hc whs) tc bp) hc os h' asgs.
Proof.
  intros Hne Hal Hd Hq.
  destruct (deepcopy_spec h0 ws) as (hc & whs & Hcopy & _ & _ & _ & Hlen & Hco).
  specialize (Hco Hal).
  assert (Hwhs : whs <> []).
  { destruct whs; [|discriminate]. destruct ws; [congruence|discriminate]. }
  assert (Hdc : forall o, In o os ->
            exists ds, distances_of L hc o whs = Ok ds
                       /\ forall h, heap_static hc h ->
                                    C hc whs h o (sort_distances ds)).
  { intros o Ho.
    destruct (@distances_of_ok L Q hc o whs) as (ds & Hds & HQ).
    - intros c Hc.
      destruct (copy_of_origin _ _ _ _ _ c Hco Hc) as (r & Hr & E).
      destruct (Hd o r Ho Hr) as (d & Hdist & HQd). exists d. split; [|exact HQd].
      unfold distance_to in *. rewrite E. exact Hdist.
    - exists ds. split; [exact Hds|]. intros h Hh.
      apply candidates_ok; [exact Hh | | exact HQ].
      rewrite (distances_of_static L hc h o whs Hh). exact Hds. }
  destruct (@assign_loop_spec L (C hc whs) whs tc bp hc os Hwhs Hdc Hq hc
              (heap_static_refl hc)) as (h' & asgs & Hloop & Hrun).
  exists hc, whs, h', asgs. repeat split; try assumption.
  unfold assign_orders_to_warehouses, bindM. rewrite Hcopy. exact Hloop.
Qed.

End EngineRun.

Lemma run_length P h os h' asgs :
  run P h os h' asgs -> List.length asgs = List.length os.
Proof. induction 1; cbn; congruence. Qed.

Lemma run_nth P h os h' asgs :
  run P h os h' asgs ->
  forall i o, nth_error os i = Some o ->
    exists h1 h2 a, nth_error asgs i = Some a /\ P h1 o h2 a.
Proof.
  induction 1 as [|h o h1 a os h2 asgs HP Hrun IH]; intros i o' Hi.
  - destruct i; discriminate.
  - destruct i as [|i]; cbn in *.
    + injection Hi as <-. exists h, h1, a. split; [reflexivity | exact HP].
    + apply IH. exact Hi.
Qed.

(** ** The records of a run *)

Lemma selection_in h qty cands h' w d b :
  selection h qty cands h' w d b -> In (d, w) cands.
Proof.
  intros [pre d0 w0 post h1 -> _ _ _ | d0 w0 rest h1 -> _ _].
  - apply in_or_app. right. left. reflexivity.
  - left. reflexivity.
Qed.

Lemma record_static tc bp o w w' d b fq :
  same_static w w' -> record tc bp o w' d b fq = record tc bp o w d b fq.
Proof.
  intros (H1 & H2 & _ & _ & H5). unfold record, unit_cost_of.
  rewrite H1, H2, H5. reflexivity.
Qed.

Lemma annotated_candidates_sort L hc whs h o ds :
  heap_static hc h ->
  distances_of L h o whs = Ok ds ->
  Forall (fun c : float * ref => True) ds ->
  annotated_candidates L hc whs h o (sort_distances ds).
Proof.
  intros Hh Hds _. split; [exact Hh|].
  pose proof (distances_of_spec L h o whs ds Hds) as H2.
  assert (Hall : Forall (fun c => In (snd c) whs
                                  /\ distance_to L h o (snd c) = Ok (fst c)) ds).
  { clear Hds. induction H2 as [|w c whs ds [<- Hc] _ IH]; [constructor|].
    constructor; [split; [left; reflexivity | exact Hc]|].
    eapply Forall_impl; [|exact IH]. cbn. intros c' [A B].
    split; [right; exact A | exact B]. }
  rewrite Forall_forall in *. intros c Hc. apply Hall.
  eapply Permutation_in; [symmetry; apply sort_distances_perm | exact Hc].
Qed.

(** Every step of a run records an input warehouse, its distance to the
    order and the costs computed from them. *)
Lemma step_record L n h0 ws hc whs tc bp h o h' a :
  copy_of n h0 ws hc whs ->
  step (annotated_candidates L hc whs) tc bp h o h' a ->
  exists r d b fq,
    In r ws
    /\ distance_to L h0 o r = Ok d
    /\ float_of_int (qty_of o) = Ok fq
    /\ a = record tc bp o (cell h0 r) d b fq.
Proof.
  intros Hco (cands & w & d & b & fq & [Hh Hann] & Hsel & Hfq & ->).
  pose proof (selection_in _ _ _ _ _ _ _ Hsel) as Hin.
  rewrite Forall_forall in Hann. destruct (Hann _ Hin) as [Hw Hd]. cbn in Hw, Hd.
  destruct (copy_of_origin _ _ _ _ _ _ Hco Hw) as (r & Hr & E).
  exists r, d, b, fq. repeat split; [exact Hr | | exact Hfq |].
  - rewrite (distance_to_static L hc h o w Hh) in Hd.
    unfold distance_to in *. rewrite <- E. exact Hd.
  - rewrite <- E. apply record_static.
    eapply same_static_trans; [apply Hh|].
    apply (selection_static _ _ _ _ _ _ _ Hsel).
Qed.

Lemma engine_records L h0 ws os tc bp :
  ws <> [] ->
  allocated h0 ws ->
  distances_computed L h0 ws os ->
  quantities_convert os ->
  exists h' asgs,
    assign_orders_to_warehouses L ws os tc bp h0 = (h', Ok asgs)
    /\ List.length asgs = List.length os
    /\ forall i o, nth_error os i = Some o ->
         exists a r d b fq,
           nth_error asgs i = Some a
           /\ In r ws
           /\ distance_to L h0 o r = Ok d
           /\ float_of_int (qty_of o) = Ok fq
           /\ a = record tc bp o (cell h0 r) d b fq.
Proof.
  intros Hne Hal Hd Hq.
  destruct (engine_run L (fun _ => True) (annotated_candidates L)
              (annotated_candidates_sort L) h0 ws os tc bp Hne Hal)
    as (hc & whs & h' & asgs & _ & Hco & Hrun & Htrace); [|exact Hq|].
  { intros o r Ho Hr. destruct (Hd o r Ho Hr) as [d Hdist]. exists d. auto. }
  exists h', asgs. split; [exact Hrun|].
  split; [eapply run_length; exact Htrace|].
  intros i o Hi.
  destruct (run_nth _ _ _ _ _ Htrace i o Hi) as (h1 & h2 & a & Ha & Hstep).
  destruct (step_record L _ _ _ _ _ _ _ _ _ _ _ Hco Hstep)
    as (r & d & b & fq & H1 & H2 & H3 & H4).
  exists a, r, d, b, fq. repeat split; assumption.
Qed.

(* ================================================================== *)
(** * The sample data *)

Ltac in_cases H := cbn in H; repeat destruct H as [<-|H]; try destruct H.

Lemma small_angle_at_zero : libm_at_zero small_angle_libm.
Proof. split; reflexivity. Qed.

Lemma small_angle_sin_odd : sin_odd small_angle_libm.
Proof. intros x. reflexivity. Qed.

Lemma sampled_near_antipodes : libm_near_antipodes sampled_libm.
Proof. split; reflexivity. Qed.

Lemma sampled_at_zero : libm_at_zero sampled_libm.
Proof. split; reflexivity. Qed.

Lemma demo_allocated : allocated Demo.heap Demo.warehouses.
Proof. repeat constructor. Qed.

Lemma demo_distances_defined :
  distances_defined small_angle_libm Demo.heap Demo.warehouses Demo.orders.
Proof.
  intros o r Ho Hr. in_cases Ho; in_cases Hr;
    eexists; split; vm_compute; reflexivity.
Qed.

Lemma demo_distances_computed :
  distances_computed small_angle_libm Demo.heap Demo.warehouses Demo.orders.
Proof.
  intros o r Ho Hr. destruct (demo_distances_defined o r Ho Hr) as (d & Hd & _).
  exists d. exact Hd.
Qed.

Lemma demo_quantities_convert : quantities_convert Demo.orders.
Proof. intros o Ho. in_cases Ho; eexists; vm_compute; reflexivity. Qed.


(** ** Runs that hold for every C library *)

Lemma haversine_km_origin L :
  libm_at_zero L -> haversine_km L 0 0 0 0 = Ok 0%float.
Proof.
  intros [Hs Hc Ha]. apply haversine_km_zero; try assumption; try reflexivity.
  change (radians 0) with 0%float. rewrite Hc. reflexivity.
Qed.

(** Between (-64.0, -180.0) and (64.00000001, 0.0) the sum [a] rounds to
    1 + 2^-51 and its square root to 1 + 2^-52, which [math.asin]
    rejects. *)
Lemma haversine_km_near_antipodes L :
  libm_near_antipodes L ->
  haversine_km L (-64) (-180) 0x1.00000000abcc7p+6 0 = Raise ValueError.
Proof.
  intros [H1 H2 H3 H4 H5 H6]. unfold haversine_km.
  change (radians (0x1.00000000abcc7p+6 - -64) / 2)%float
    with 0x1.1df46a2589c6fp+0%float.
  change (radians (0 - -180) / 2)%float with 0x1.921fb54442d18p+0%float.
  change (radians (-64)) with (-0x1.1df46a2529d39p+0)%float.
  change (radians 0x1.00000000abcc7p+6) with 0x1.1df46a25e9ba3p+0%float.
  assert (S1 : sin L 0x1.1df46a2589c6fp+0 = Ok 0x1.cc2ebbb5b7ac6p-1%float).
  { unfold sin, math_1. rewrite H1. reflexivity. }
  assert (P1 : pow2 L 0x1.cc2ebbb5b7ac6p-1 = Ok 0x1.9d9bfd8e85824p-1%float).
  { change (pow2 L 0x1.cc2ebbb5b7ac6p-1)
      with (let r := c_pow L 0x1.cc2ebbb5b7ac6p-1 2 in
            if is_infinity r then Raise OverflowError else Ok r).
    cbv zeta. rewrite H2. reflexivity. }
  assert (C1 : cos L (-0x1.1df46a2529d39p+0) = Ok 0x1.c0e45dabe05c9p-2%float).
  { unfold cos, math_1. rewrite H3. reflexivity. }
  assert (C2 : cos L 0x1.1df46a25e9ba3p+0 = Ok 0x1.c0e45da92e71bp-2%float).
  { unfold cos, math_1. rewrite H4. reflexivity. }
  assert (S2 : sin L 0x1.921fb54442d18p+0 = Ok 1%float).
  { unfold sin, math_1. rewrite H5. reflexivity. }
  rewrite S1. cbn [bind]. rewrite P1. cbn [bind]. rewrite C1, C2. cbn [bind].
  rewrite S2. cbn [bind]. change (pow2 L 1) with (Ok 1%float). cbn [bind].
  change (sqrt (0x1.9d9bfd8e85824p-1
                + 0x1.c0e45dabe05c9p-2 * 0x1.c0e45da92e71bp-2 * 1))
    with (Ok 0x1.0000000000001p+0%float).
  cbn [bind]. unfold asin, math_1. rewrite H6. reflexivity.
Qed.

(** An order at (-64.0, -180.0) and a warehouse at (64.00000001, 0.0): the
    distance of line 23 raises. *)
Lemma engine_raises_near_antipodes L tc bp :
  libm_near_antipodes L ->
  snd (assign_orders_to_warehouses L [0] [Demo.order_s] tc bp Demo.heap_n)
  = Raise ValueError.
Proof.
  intros HL.
  cbv [assign_orders_to_warehouses bindM deepcopy deepcopy_list memo_get
       alloc assign_loop assign_order get_heap lift distances_of mapM
       distance_to Demo.heap_n Demo.order_s Demo.WH_N next cell
       o_lat o_lon w_lat w_lon Nat.eqb bind].
  rewrite (haversine_km_near_antipodes L HL). reflexivity.
Qed.

(** An order of 2^1024 units: the product of line 35 cannot convert the
    quantity to a float. *)
Lemma engine_raises_on_huge_quantity L tc bp :
  libm_at_zero L ->
  snd (assign_orders_to_warehouses L [0] [Demo.order_big] tc bp Demo.heap_c)
  = Raise OverflowError.
Proof.
  intros HL.
  cbv [assign_orders_to_warehouses bindM deepcopy deepcopy_list memo_get
       alloc assign_loop assign_order get_heap lift distances_of mapM
       distance_to Demo.heap_c Demo.order_big Demo.WH_C next cell
       o_lat o_lon w_lat w_lon Nat.eqb bind].
  rewrite (haversine_km_origin L HL). vm_compute. reflexivity.
Qed.

Lemma snd_raise {A} (c : Heap * result A) e h x :
  snd c = Raise e -> c <> (h, Ok x).
Proof. intros H ->. discriminate. Qed.

(* ================================================================== *)
(** * The distance: theorems *)

(** C8, as the code has it.  The half-chord value [sqrt(a)] goes to
    [math.asin] as it is, without a clamp: once the sines and cosines are
    computed, [haversine_km] returns [2 * 6371.0 * asin(sqrt(a))] when the
    arc sine of [sqrt(a)] is a finite number, and raises [ValueError] (math
    domain error) when it is not a number, as for every [sqrt(a)] that
    rounding has pushed above 1.  Two coincident points with finite
    coordinates are at distance [0.0], without an error. *)
Theorem haversine_km_unclamped L :
  (forall lat1 lon1 lat2 lon2 s1 p1 c1 c2 s2 p2 r,
     sin L (radians (lat2 - lat1) / 2) = Ok s1 ->
     pow2 L s1 = Ok p1 ->
     cos L (radians lat1) = Ok c1 ->
     cos L (radians lat2) = Ok c2 ->
     sin L (radians (lon2 - lon1) / 2) = Ok s2 ->
     pow2 L s2 = Ok p2 ->
     sqrt (p1 + c1 * c2 * p2) = Ok r ->
     is_nan r = false ->
     (PrimFloat.is_finite (c_asin L r) = true ->
      haversine_km L lat1 lon1 lat2 lon2 = Ok (2 * 6371 * c_asin L r)%float)
     /\ (is_nan (c_asin L r) = true ->
         haversine_km L lat1 lon1 lat2 lon2 = Raise ValueError))
  /\ (forall lat lon,
        libm_at_zero L ->
        PrimFloat.is_finite lat = true ->
        PrimFloat.is_finite lon = true ->
        PrimFloat.is_finite
          (c_cos L (radians lat) * c_cos L (radians lat)) = true ->
        haversine_km L lat lon lat lon = Ok 0%float).
Proof.
  split.
  - intros lat1 lon1 lat2 lon2 s1 p1 c1 c2 s2 p2 r S1 P1 C1 C2 S2 P2 R Hr.
    unfold haversine_km. rewrite S1. cbn [bind]. rewrite P1. cbn [bind].
    rewrite C1, C2. cbn [bind]. rewrite S2. cbn [bind]. rewrite P2.
    cbn [bind]. rewrite R. cbn [bind]. unfold asin. split; intros Ha.
    + rewrite math_1_finite by exact Ha. reflexivity.
    + unfold math_1. rewrite Ha, Hr. reflexivity.
  - intros lat lon [Hs Hc Ha] Hlat Hlon Hcos.
    apply haversine_km_zero; try assumption.
    + rewrite FloatFacts.sub_diag by exact Hlat. reflexivity.
    + rewrite FloatFacts.sub_diag by exact Hlon. reflexivity.
Qed.

Lemma haversine_km_unclamped_witness :
  (exists r,
     haversine_km sampled_libm 28.5 77.25 28.75 77.125
     = Ok (2 * 6371 * c_asin sampled_libm r)%float)
  /\ haversine_km sampled_libm (-64) (-180) 0x1.00000000abcc7p+6 0
     = Raise ValueError
  /\ haversine_km sampled_libm 28.5 77.25 28.5 77.25 = Ok 0%float.
Proof.
  split; [|split].
  - eexists.
    edestruct (proj1 (haversine_km_unclamped sampled_libm)
                 28.5 77.25 28.75 77.125)%float as [Hfinite _];
      [cbv; reflexivity .. | apply Hfinite; reflexivity].
  - edestruct (proj1 (haversine_km_unclamped sampled_libm)
                 (-64) (-180) 0x1.00000000abcc7p+6 0)%float as [_ Hnan];
      [cbv; reflexivity .. | apply Hnan; reflexivity].
  - apply (proj2 (haversine_km_unclamped sampled_libm) 28.5%float 77.25%float
             sampled_at_zero); reflexivity.
Defined.

(** C8, as the claim states it, fails between (-64.0, -180.0) and
    (64.00000001, 0.0), two points with valid coordinates: for every C
    library that returns the values of [libm_near_antipodes], [haversine_km]
    raises the domain error of [math.asin]. *)
Lemma haversine_km_domain_error_on_valid_coordinates :
  (forall L, libm_near_antipodes L ->
     haversine_km L (-64) (-180) 0x1.00000000abcc7p+6 0 = Raise ValueError)
  /\ valid_coordinates (-64) (-180) = true
  /\ valid_coordinates 0x1.00000000abcc7p+6 0 = true.
Proof.
  split; [exact haversine_km_near_antipodes | split; reflexivity].
Qed.

(** C9, as the code has it.  With a C library whose sine is odd and exact
    at zero, the distance does not depend on the order of the two points,
    raised exceptions included, and the distance from a point with finite
    coordinates to itself is [0.0] (the cosine of its latitude being a
    number whose square is finite).  The converse is left out: a distance
    of [0.0] does not make the points equal. *)
Theorem haversine_km_symmetric_and_zero_on_equal L :
  sin_odd L ->
  libm_at_zero L ->
  (forall lat1 lon1 lat2 lon2,
     haversine_km L lat1 lon1 lat2 lon2 = haversine_km L lat2 lon2 lat1 lon1)
  /\ (forall lat lon,
        PrimFloat.is_finite lat = true ->
        PrimFloat.is_finite lon = true ->
        PrimFloat.is_finite
          (c_cos L (radians lat) * c_cos L (radians lat)) = true ->
        haversine_km L lat lon lat lon = Ok 0%float).
Proof.
  intros Hodd [Hs Hc Ha]. split.
  - intros lat1 lon1 lat2 lon2. apply haversine_km_symmetric. exact Hodd.
  - intros lat lon Hlat Hlon Hcos.
    apply haversine_km_zero; try assumption.
    + rewrite FloatFacts.sub_diag by exact Hlat. reflexivity.
    + rewrite FloatFacts.sub_diag by exact Hlon. reflexivity.
Qed.

Lemma haversine_km_symmetric_and_zero_on_equal_witness :
  haversine_km small_angle_libm 28.5 77.25 28.75 77.125
  = haversine_km small_angle_libm 28.75 77.125 28.5 77.25
  /\ haversine_km small_angle_libm 28.5 77.25 28.5 77.25 = Ok 0%float.
Proof.
  split.
  - apply (proj1 (haversine_km_symmetric_and_zero_on_equal small_angle_libm
                    small_angle_sin_odd small_angle_at_zero)).
  - apply (proj2 (haversine_km_symmetric_and_zero_on_equal small_angle_libm
                    small_angle_sin_odd small_angle_at_zero));
      vm_compute; reflexivity.
Defined.

(** C9, as the claim states it, fails between the origin and the point
    whose latitude is the smallest positive float, 2^-1074 (Python's
    [5e-324]): whatever the C library, the distance is [0.0], and the two
    latitudes differ. *)
Lemma haversine_km_zero_between_distinct_points :
  (forall L, libm_at_zero L -> haversine_km L 0 0 0x1p-1074 0 = Ok 0%float)
  /\ (0x1p-1074 =? 0)%float = false.
Proof.
  split; [|reflexivity].
  intros L [Hs Hc Ha]. apply haversine_km_zero; try assumption; try reflexivity.
  change (radians 0) with 0%float. change (radians 0x1p-1074) with 0%float.
  rewrite Hc. reflexivity.
Qed.

(* ================================================================== *)
(** * The assignment engine: theorems *)

(** C1, as the code has it.  On a non-empty list of warehouses, when every
    distance is computed and is a number and every quantity converts to a
    float, the orders are processed in input order on a working copy of the
    warehouses.  For each order the candidates are the warehouses sorted by
    ascending distance, ties in the order of the list; the first candidate
    whose current inventory is at least the quantity is chosen, its
    inventory is decremented by exactly that quantity and the order is not
    backordered; when no candidate has enough inventory the head of the
    sorted list is chosen, no inventory changes and the order is
    backordered. *)
Theorem greedy_first_fit L h0 ws os tc bp :
  ws <> [] ->
  allocated h0 ws ->
  distances_defined L h0 ws os ->
  quantities_convert os ->
  exists hc whs h' asgs,
    deepcopy ws h0 = (hc, Ok whs)
    /\ copy_of (next h0) h0 ws hc whs
    /\ assign_orders_to_warehouses L ws os tc bp h0 = (h', Ok asgs)
    /\ run (step (fun h o => sorted_candidates L h o whs) tc bp)
           hc os h' asgs.
Proof.
  intros Hne Hal Hd Hq.
  apply (engine_run L (fun d => is_nan d = false)
           (fun _ whs h o => sorted_candidates L h o whs)); try assumption.
  intros hc whs h o ds _ Hds Hn. apply sorted_candidates_sort; assumption.
Qed.

Lemma greedy_first_fit_witness :
  exists hc whs h' asgs,
    deepcopy Demo.warehouses Demo.heap = (hc, Ok whs)
    /\ copy_of (next Demo.heap) Demo.heap Demo.warehouses hc whs
    /\ assign_orders_to_warehouses small_angle_libm Demo.warehouses
         Demo.orders 0.5 50 Demo.heap = (h', Ok asgs)
    /\ run (step (fun h o => sorted_candidates small_angle_libm h o whs)
                 0.5 50)
           hc Demo.orders h' asgs.
Proof.
  apply (greedy_first_fit small_angle_libm Demo.heap Demo.warehouses
           Demo.orders 0.5 50);
    [ discriminate
    | exact demo_allocated
    | exact demo_distances_defined
    | exact demo_quantities_convert ].
Defined.

(** C1, as the claim states it, fails on two runs with one warehouse and one
    order, on which the order is assigned to no warehouse: the engine raises
    the [ValueError] of the distance for an order at (-64.0, -180.0) and a
    warehouse at (64.00000001, 0.0), and the [OverflowError] of the item
    cost for an order of 2^1024 units. *)
Lemma order_unassigned_when_engine_raises :
  (forall L, libm_near_antipodes L ->
     snd (assign_orders_to_warehouses L [0] [Demo.order_s] 0.5 50 Demo.heap_n)
     = Raise ValueError)
  /\ (forall L, libm_at_zero L ->
        snd (assign_orders_to_warehouses L [0] [Demo.order_big] 0.5 50
               Demo.heap_c)
        = Raise OverflowError).
Proof.
  split; intros L HL;
    [apply engine_raises_near_antipodes | apply engine_raises_on_huge_quantity];
    exact HL.
Qed.

(** C2, as the code has it.  On a non-empty list of warehouses, when every
    distance is computed and every quantity converts to a float, the engine
    returns exactly one assignment per order: the list returned has the
    length of the list of orders. *)
Theorem one_assignment_per_order L h0 ws os tc bp :
  ws <> [] ->
  allocated h0 ws ->
  distances_computed L h0 ws os ->
  quantities_convert os ->
  exists h' asgs,
    assign_orders_to_warehouses L ws os tc bp h0 = (h', Ok asgs)
    /\ List.length asgs = List.length os.
Proof.
  intros Hne Hal Hd Hq.
  destruct (engine_records L h0 ws os tc bp Hne Hal Hd Hq)
    as (h' & asgs & Hrun & Hlen & _).
  exists h', asgs. split; assumption.
Qed.

Lemma one_assignment_per_order_witness :
  exists h' asgs,
    assign_orders_to_warehouses small_angle_libm Demo.warehouses Demo.orders
      0.5 50 Demo.heap = (h', Ok asgs)
    /\ List.length asgs = List.length Demo.orders.
Proof.
  apply (one_assignment_per_order small_angle_libm Demo.heap Demo.warehouses
           Demo.orders 0.5 50);
    [ discriminate
    | exact demo_allocated
    | exact demo_distances_computed
    | exact demo_quantities_convert ].
Defined.

(** C2, as the claim states it, fails on the same two runs: one warehouse,
    one order, and no list of assignments is returned. *)
Lemma no_assignment_list_when_engine_raises :
  (forall L, libm_near_antipodes L ->
     forall h' asgs,
       assign_orders_to_warehouses L [0] [Demo.order_s] 0.5 50 Demo.heap_n
       <> (h', Ok asgs))
  /\ (forall L, libm_at_zero L ->
        forall h' asgs,
          assign_orders_to_warehouses L [0] [Demo.order_big] 0.5 50
            Demo.heap_c
          <> (h', Ok asgs)).
Proof.
  split; intros L HL h' asgs.
  - eapply snd_raise, engine_raises_near_antipodes, HL.
  - eapply snd_raise, engine_raises_on_huge_quantity, HL.
Qed.

(** C4.  Whatever the warehouses and the orders, and whether the engine
    returns or raises, every object of the caller's heap is left as it was:
    the engine writes only to the copies it allocates. *)
Theorem caller_warehouses_unchanged L h0 ws os tc bp :
  next h0 <= next (fst (assign_orders_to_warehouses L ws os tc bp h0))
  /\ forall r, r < next h0 ->
       cell (fst (assign_orders_to_warehouses L ws os tc bp h0)) r
       = cell h0 r.
Proof.
  unfold assign_orders_to_warehouses, bindM.
  destruct (deepcopy_spec h0 ws) as (hc & whs & -> & Hn & Hf & Hfresh & _ & _).
  pose proof (assign_loop_frame L whs tc bp os hc) as [F1 F2].
  split; [rewrite F1; exact Hn|].
  intros r Hr. rewrite F2; [apply Hf; exact Hr|].
  intros Hin. rewrite Forall_forall in Hfresh.
  specialize (Hfresh r Hin). lia.
Qed.

(** C6, as the code has it.  With an empty list of warehouses and at least
    one order the engine raises the [IndexError] of [distances[0]] at the
    first order, and leaves the heap as it was. *)
Theorem empty_warehouses_index_error L h0 o os tc bp :
  assign_orders_to_warehouses L [] (o :: os) tc bp h0 = (h0, Raise IndexError).
Proof. destruct h0. reflexivity. Qed.

(** C6, as the claim states it, fails on the sample orders: the exception
    is not the [InvalidInput] of the specification. *)
Lemma empty_warehouses_not_invalid_input :
  snd (assign_orders_to_warehouses small_angle_libm [] Demo.orders 0.5 50
         Demo.heap)
  = Raise IndexError
  /\ Raise IndexError <> (Raise InvalidInput : result (list Assignment)).
Proof. split; [vm_compute; reflexivity | discriminate]. Qed.

(** C7, as the code has it.  With the default configuration every recorded
    figure is rounded to two decimals, each from the unrounded distance [d]
    between the order and the assigned warehouse: the distance is
    [round(d, 2)], the transport cost [round(d * 0.5, 2)], the item cost
    [round(unit_cost * qty, 2)] and the total
    [round(d * 0.5 + unit_cost * qty + penalty, 2)], the penalty being 50.0
    for a backorder and 0.0 otherwise. *)
Theorem recorded_costs L h0 ws os :
  ws <> [] ->
  allocated h0 ws ->
  distances_computed L h0 ws os ->
  quantities_convert os ->
  exists h' asgs,
    assign_orders_to_warehouses L ws os default_transport_cost_per_km
      default_backorder_penalty h0 = (h', Ok asgs)
    /\ forall i o, nth_error os i = Some o ->
         exists a r d fq,
           nth_error asgs i = Some a
           /\ In r ws
           /\ a_warehouse_id a = w_id (cell h0 r)
           /\ distance_to L h0 o r = Ok d
           /\ float_of_int (qty_of o) = Ok fq
           /\ a_dist_km a = round2 d
           /\ a_transport_cost a = round2 (d * 0.5)
           /\ a_item_cost a = round2 (unit_cost_of (cell h0 r) * fq)
           /\ a_total_cost a
              = round2 (d * 0.5 + unit_cost_of (cell h0 r) * fq
                        + (if a_backorder a then 50 else 0)).
Proof.
  intros Hne Hal Hd Hq.
  destruct (engine_records L h0 ws os default_transport_cost_per_km
              default_backorder_penalty Hne Hal Hd Hq)
    as (h' & asgs & Hrun & _ & Hrec).
  exists h', asgs. split; [exact Hrun|].
  intros i o Hi.
  destruct (Hrec i o Hi) as (a & r & d & b & fq & H1 & H2 & H3 & H4 & ->).
  exists (record default_transport_cost_per_km default_backorder_penalty o
            (cell h0 r) d b fq), r, d, fq.
  repeat split; assumption.
Qed.

Lemma recorded_costs_witness :
  exists h' asgs,
    assign_orders_to_warehouses small_angle_libm Demo.warehouses Demo.orders
      default_transport_cost_per_km default_backorder_penalty Demo.heap
    = (h', Ok asgs)
    /\ forall i o, nth_error Demo.orders i = Some o ->
         exists a r d fq,
           nth_error asgs i = Some a
           /\ In r Demo.warehouses
           /\ a_warehouse_id a = w_id (cell Demo.heap r)
           /\ distance_to small_angle_libm Demo.heap o r = Ok d
           /\ float_of_int (qty_of o) = Ok fq
           /\ a_dist_km a = round2 d
           /\ a_transport_cost a = round2 (d * 0.5)
           /\ a_item_cost a = round2 (unit_cost_of (cell Demo.heap r) * fq)
           /\ a_total_cost a
              = round2 (d * 0.5 + unit_cost_of (cell Demo.heap r) * fq
                        + (if a_backorder a then 50 else 0)).
Proof.
  apply (recorded_costs small_angle_libm Demo.heap Demo.warehouses
           Demo.orders);
    [ discriminate
    | exact demo_allocated
    | exact demo_distances_computed
    | exact demo_quantities_convert ].
Defined.

(** C7, as the claim states it, fails for an order of one unit placed at a
    warehouse that sells at 0.125 a unit: whatever the C library, the
    engine records the item cost [round(0.125, 2)], which is not the
    product [0.125 * 1] of the claim. *)
Lemma recorded_item_cost_is_rounded :
  (forall L, libm_at_zero L ->
     snd (assign_orders_to_warehouses L [0] [Demo.order_c]
            default_transport_cost_per_km default_backorder_penalty
            Demo.heap_c)
     = Ok [Demo.assignment_c])
  /\ (a_item_cost Demo.assignment_c =? unit_cost_of Demo.WH_C * 1)%float
     = false.
Proof.
  split; [|vm_compute; reflexivity].
  intros L HL.
  cbv [assign_orders_to_warehouses bindM deepcopy deepcopy_list memo_get
       alloc assign_loop assign_order get_heap lift distances_of mapM
       distance_to Demo.heap_c Demo.order_c Demo.WH_C next cell
       o_lat o_lon w_lat w_lon Nat.eqb bind].
  rewrite (haversine_km_origin L HL).
  reflexivity.
Qed.

(** C10, as the code has it.  On a non-empty list of warehouses, when every
    distance is computed and every quantity converts to a float, the
    assignments follow the orders position by position: the assignment at
    index [i] carries the identifier, the quantity and the coordinates of
    the order at index [i]. *)
Theorem assignments_follow_orders L h0 ws os tc bp :
  ws <> [] ->
  allocated h0 ws ->
  distances_computed L h0 ws os ->
  quantities_convert os ->
  exists h' asgs,
    assign_orders_to_warehouses L ws os tc bp h0 = (h', Ok asgs)
    /\ forall i o, nth_error os i = Some o ->
         exists a,
           nth_error asgs i = Some a
           /\ a_order_id a = o_id o
           /\ a_qty a = qty_of o
           /\ a_lat a = o_lat o
           /\ a_lon a = o_lon o.
Proof.
  intros Hne Hal Hd Hq.
  destruct (engine_records L h0 ws os tc bp Hne Hal Hd Hq)
    as (h' & asgs & Hrun & _ & Hrec).
  exists h', asgs. split; [exact Hrun|].
  intros i o Hi.
  destruct (Hrec i o Hi) as (a & r & d & b & fq & H1 & _ & _ & _ & ->).
  eexists. split; [exact H1|]. repeat split.
Qed.

Lemma assignments_follow_orders_witness :
  exists h' asgs,
    assign_orders_to_warehouses small_angle_libm Demo.warehouses Demo.orders
      0.5 50 Demo.heap = (h', Ok asgs)
    /\ forall i o, nth_error Demo.orders i = Some o ->
         exists a,
           nth_error asgs i = Some a
           /\ a_order_id a = o_id o
           /\ a_qty a = qty_of o
           /\ a_lat a = o_lat o
           /\ a_lon a = o_lon o.
Proof.
  apply (assignments_follow_orders small_angle_libm Demo.heap Demo.warehouses
           Demo.orders 0.5 50);
    [ discriminate
    | exact demo_allocated
    | exact demo_distances_computed
    | exact demo_quantities_convert ].
Defined.

(** C10, as the claim states it, fails on the same two runs: no assignment
    stands at index 0 for the order at index 0. *)
Lemma first_order_without_assignment :
  (forall L, libm_near_antipodes L ->
     ~ exists h' asgs a,
         assign_orders_to_warehouses L [0] [Demo.order_s] 0.5 50 Demo.heap_n
         = (h', Ok asgs)
         /\ nth_error asgs 0 = Some a
         /\ a_order_id a = o_id Demo.order_s)
  /\ (forall L, libm_at_zero L ->
        ~ exists h' asgs a,
            assign_orders_to_warehouses L [0] [Demo.order_big] 0.5 50
              Demo.heap_c
            = (h', Ok asgs)
            /\ nth_error asgs 0 = Some a
            /\ a_order_id a = o_id Demo.order_big).
Proof.
  split; intros L HL (h' & asgs & a & Hrun & _); revert Hrun.
  - eapply snd_raise, engine_raises_near_antipodes, HL.
  - eapply snd_raise, engine_raises_on_huge_quantity, HL.
Qed.

(* ================================================================== *)
(** * The route planner: theorems *)






(** ** The routing orchestrator *)






(* ================================================================== *)
(** * The assignment engine: stock *)

Lemma NoDup_map_inj {A B} (f : A -> B) l x y :
  NoDup (map f l) -> In x l -> In y l -> f x = f y -> x = y.
Proof.
  induction l as [|z l IH]; intros Hnd Hx Hy E; [destruct Hx|].
  cbn in Hnd. inversion Hnd as [|? ? Hz Hl]; subst.
  destruct Hx as [->|Hx], Hy as [->|Hy].
  - reflexivity.
  - exfalso. apply Hz. rewrite E. apply in_map. exact Hy.
  - exfalso. apply Hz. rewrite <- E. apply in_map. exact Hx.
  - apply IH; assumption.
Qed.

Lemma copy_of_map {B} (f : Warehouse -> B) n h0 ws hc whs :
  copy_of n h0 ws hc whs ->
  map (fun c => f (cell hc c)) whs = map (fun r => f (cell h0 r)) ws.
Proof.
  intros H. induction H as [|r c ws whs [_ E] _ IH]; [reflexivity|].
  cbn. rewrite E, IH. reflexivity.
Qed.

Lemma copy_of_image n h0 ws hc whs r :
  copy_of n h0 ws hc whs -> In r ws ->
  exists c, In c whs /\ cell hc c = cell h0 r.
Proof.
  intros H Hr. induction H as [|r' c ws whs [_ E] _ IH]; [destruct Hr|].
  destruct Hr as [->|Hr]; [exists c; split; [left; reflexivity | exact E]|].
  destruct (IH Hr) as (c' & Hc' & E'). exists c'.
  split; [right|]; assumption.
Qed.

Lemma listed_candidates_sort L hc whs h o ds :
  heap_static hc h ->
  distances_of L h o whs = Ok ds ->
  Forall (fun c : float * ref => True) ds ->
  listed_candidates L hc whs h o (sort_distances ds).
Proof.
  intros Hh Hds Ht. split; [apply annotated_candidates_sort; assumption|].
  rewrite <- (distances_of_refs L h o whs ds Hds).
  apply Permutation_map, sort_distances_perm.
Qed.

Lemma selection_member L hc whs h o cands qty h' w d b :
  listed_candidates L hc whs h o cands ->
  selection h qty cands h' w d b ->
  In w whs /\ distance_to L h o w = Ok d.
Proof.
  intros [[_ Hann] _] Hsel.
  pose proof (selection_in _ _ _ _ _ _ _ Hsel) as Hin.
  rewrite Forall_forall in Hann. exact (Hann _ Hin).
Qed.

(** What one order takes from the stock of the working copy [c]. *)
Lemma step_stock L hc whs tc bp h o h' a c :
  unique_ids hc whs -> In c whs ->
  step (listed_candidates L hc whs) tc bp h o h' a ->
  w_inventory (cell h' c)
  = (w_inventory (cell h c) - fulfilled_from (w_id (cell hc c)) [a])%Z
  /\ ((0 <= w_inventory (cell h c))%Z -> (0 <= w_inventory (cell h' c))%Z).
Proof.
  intros Hu Hc (cands & w & d & b & fq & HC & Hsel & Hfq & ->).
  destruct (selection_member _ _ _ _ _ _ _ _ _ _ _ HC Hsel) as [Hw _].
  assert (Hid : w_id (cell h' w) = w_id (cell hc w)).
  { destruct HC as [[[_ Hh] _] _].
    destruct (selection_static _ _ _ _ _ _ _ Hsel) as [_ Hs].
    destruct (Hs w) as [-> _]. destruct (Hh w) as [-> _]. reflexivity. }
  cbn [fulfilled_from record a_backorder a_warehouse_id a_qty]. rewrite Hid.
  destruct Hsel as [pre d0 w0 post h1 E Hpre Hst Hdec | d0 w0 rest h1 E Hall Hun].
  - destruct Hdec as (_ & Hinv & _ & Hoth). cbn [negb andb].
    unfold stocked in Hst. cbn [snd] in Hst.
    destruct (Nat.eq_dec c w0) as [->|Hne].
    + rewrite Z.eqb_refl, Hinv. split; lia.
    + rewrite (Hoth c Hne).
      assert (Hdiff : (w_id (cell hc w0) =? w_id (cell hc c))%Z = false).
      { apply Z.eqb_neq. intros E'. apply Hne. symmetry.
        exact (NoDup_map_inj (fun r => w_id (cell hc r)) whs w0 c Hu Hw Hc E'). }
      rewrite Hdiff. split; lia.
  - destruct Hun as [_ Hcells]. rewrite Hcells. cbn [negb andb]. split; lia.
Qed.

Lemma run_stock L hc whs tc bp c :
  unique_ids hc whs -> In c whs ->
  forall h os h' asgs,
    run (step (listed_candidates L hc whs) tc bp) h os h' asgs ->
    w_inventory (cell h' c)
    = (w_inventory (cell h c) - fulfilled_from (w_id (cell hc c)) asgs)%Z
    /\ ((0 <= w_inventory (cell h c))%Z -> (0 <= w_inventory (cell h' c))%Z).
Proof.
  intros Hu Hc h os h' asgs Hrun.
  induction Hrun as [h|h o h1 a os h2 asgs Hstep _ [IH1 IH2]].
  - cbn. split; lia.
  - destruct (step_stock _ _ _ _ _ _ _ _ _ _ Hu Hc Hstep) as [S1 S2].
    cbn [fulfilled_from] in *. split; lia.
Qed.

Lemma engine_listed_run L h0 ws os tc bp :
  ws <> [] ->
  allocated h0 ws ->
  distances_computed L h0 ws os ->
  quantities_convert os ->
  exists hc whs h' asgs,
    copy_of (next h0) h0 ws hc whs
    /\ assign_orders_to_warehouses L ws os tc bp h0 = (h', Ok asgs)
    /\ run (step (listed_candidates L hc whs) tc bp) hc os h' asgs.
Proof.
  intros Hne Hal Hd Hq.
  destruct (engine_run L (fun _ => True) (listed_candidates L)
              (listed_candidates_sort L) h0 ws os tc bp Hne Hal)
    as (hc & whs & h' & asgs & _ & Hco & Hrun & Htrace); [|exact Hq|].
  { intros o r Ho Hr. destruct (Hd o r Ho Hr) as [d Hdist]. exists d. auto. }
  exists hc, whs, h', asgs. repeat split; assumption.
Qed.

(** X1.  Warehouses with distinct identifiers, every distance computed and
    every quantity convertible to a float: the engine returns, and the
    quantities of the assignments that are not backordered and name a
    warehouse whose inventory is not negative add up to at most that
    inventory. *)
Theorem fulfilled_within_stock L h0 ws os tc bp r :
  allocated h0 ws ->
  distances_computed L h0 ws os ->
  quantities_convert os ->
  unique_ids h0 ws ->
  In r ws ->
  (0 <= w_inventory (cell h0 r))%Z ->
  exists h' asgs,
    assign_orders_to_warehouses L ws os tc bp h0 = (h', Ok asgs)
    /\ (fulfilled_from (w_id (cell h0 r)) asgs <= w_inventory (cell h0 r))%Z.
Proof.
  intros Hal Hd Hq Hu Hr Hinv.
  assert (Hne : ws <> []) by (intros ->; destruct Hr).
  destruct (engine_listed_run L h0 ws os tc bp Hne Hal Hd Hq)
    as (hc & whs & h' & asgs & Hco & Hrun & Htrace).
  exists h', asgs. split; [exact Hrun|].
  destruct (copy_of_image _ _ _ _ _ r Hco Hr) as (c & Hc & E).
  assert (Hu' : unique_ids hc whs).
  { unfold unique_ids. rewrite (copy_of_map w_id _ _ _ _ _ Hco). exact Hu. }
  destruct (run_stock L hc whs tc bp c Hu' Hc _ _ _ _ Htrace) as [S1 S2].
  rewrite E in S1, S2. specialize (S2 Hinv). lia.
Qed.

Lemma demo_unique_ids : unique_ids Demo.heap Demo.warehouses.
Proof.
  unfold unique_ids. cbn. repeat constructor; cbn; intuition discriminate.
Qed.

Lemma fulfilled_within_stock_witness :
  exists h' asgs,
    assign_orders_to_warehouses small_angle_libm Demo.warehouses Demo.orders
      0.5 50 Demo.heap = (h', Ok asgs)
    /\ (fulfilled_from (w_id (cell Demo.heap 0)) asgs
        <= w_inventory (cell Demo.heap 0))%Z.
Proof.
  apply (fulfilled_within_stock small_angle_libm Demo.heap Demo.warehouses
           Demo.orders 0.5 50 0);
    [ exact demo_allocated
    | exact demo_distances_computed
    | exact demo_quantities_convert
    | exact demo_unique_ids
    | left; reflexivity
    | cbn; lia ].
Defined.

Lemma total_inventory_decremented h w qty h' ws :
  NoDup ws -> In w ws -> decremented h w qty h' ->
  total_inventory h' ws = (total_inventory h ws - qty)%Z.
Proof.
  intros Hnd Hw (_ & Hinv & _ & Hoth). unfold total_inventory.
  induction ws as [|r ws IH]; [destruct Hw|].
  inversion Hnd as [|? ? Hr Hws]; subst. cbn [map fold_right].
  destruct Hw as [->|Hw].
  - rewrite Hinv.
    assert (E : map (fun r => w_inventory (cell h' r)) ws
                = map (fun r => w_inventory (cell h r)) ws).
    { apply map_ext_in. intros r' Hr'. rewrite Hoth; [reflexivity|].
      intros ->. exact (Hr Hr'). }
    rewrite E. lia.
  - rewrite (IH Hws Hw), Hoth; [lia|]. intros ->. exact (Hr Hw).
Qed.

Lemma stocked_exists h ws :
  (forall r, In r ws -> (0 <= w_inventory (cell h r))%Z) ->
  (1 <= total_inventory h ws)%Z ->
  exists r, In r ws /\ (1 <= w_inventory (cell h r))%Z.
Proof.
  unfold total_inventory. induction ws as [|r ws IH]; cbn [map fold_right];
    intros Hpos Htot; [lia|].
  destruct (Z_le_gt_dec 1 (w_inventory (cell h r))) as [Hle|Hgt].
  - exists r. split; [left; reflexivity | exact Hle].
  - destruct IH as (r' & Hr' & Hs).
    + intros r' Hr'. apply Hpos. right. exact Hr'.
    + specialize (Hpos r (or_introl eq_refl)). lia.
    + exists r'. split; [right; exact Hr' | exact Hs].
Qed.

Lemma run_unit_stock L hc whs tc bp :
  NoDup whs ->
  forall h os h' asgs,
    run (step (listed_candidates L hc whs) tc bp) h os h' asgs ->
    (forall c, In c whs -> (0 <= w_inventory (cell h c))%Z) ->
    (forall o, In o os -> qty_of o = 1%Z) ->
    (Z.of_nat (List.length os) <= total_inventory h whs)%Z ->
    Forall (fun a => a_backorder a = false) asgs.
Proof.
  intros Hnd h os h' asgs Hrun.
  induction Hrun as [h|h o h1 a os h2 asgs Hstep _ IH]; intros Hpos Hq Htot;
    [constructor|].
  destruct Hstep as (cands & w & d & b & fq & HC & Hsel & Hfq & ->).
  destruct (selection_member _ _ _ _ _ _ _ _ _ _ _ HC Hsel) as [Hw _].
  rewrite (Hq o (or_introl eq_refl)) in Hsel.
  cbn [List.length] in Htot.
  destruct (stocked_exists h whs Hpos ltac:(lia)) as (c & Hc & Hs).
  destruct Hsel as [pre d0 w0 post h1 E Hpre Hst Hdec | d0 w0 rest h1 E Hall Hun].
  - constructor; [reflexivity|].
    pose proof (total_inventory_decremented _ _ _ _ whs Hnd Hw Hdec) as Ht.
    destruct Hdec as (_ & Hinv & _ & Hoth).
    unfold stocked in Hst. cbn [snd] in Hst.
    apply IH.
    + intros c' Hc'. destruct (Nat.eq_dec c' w0) as [->|Hne].
      * rewrite Hinv. lia.
      * rewrite (Hoth c' Hne). apply Hpos. exact Hc'.
    + intros o' Ho'. apply Hq. right. exact Ho'.
    + lia.
  - exfalso. destruct HC as [_ Hperm].
    assert (Hin : In c (map snd cands))
      by (eapply Permutation_in; [exact Hperm | exact Hc]).
    apply in_map_iff in Hin. destruct Hin as ([d' c'] & Ec & Hin).
    cbn in Ec. subst c'. rewrite Forall_forall in Hall.
    apply (Hall _ Hin). exact Hs.
Qed.

(** X2.  Warehouses with distinct identifiers and inventories that are not
    negative, orders of one unit each, every distance computed: when the
    inventories add up to at least the number of orders, the engine returns
    and no assignment is backordered. *)
Theorem unit_orders_within_stock_not_backordered L h0 ws os tc bp :
  allocated h0 ws ->
  distances_computed L h0 ws os ->
  unique_ids h0 ws ->
  (forall r, In r ws -> (0 <= w_inventory (cell h0 r))%Z) ->
  (forall o, In o os -> qty_of o = 1%Z) ->
  (Z.of_nat (List.length os) <= total_inventory h0 ws)%Z ->
  exists h' asgs,
    assign_orders_to_warehouses L ws os tc bp h0 = (h', Ok asgs)
    /\ Forall (fun a => a_backorder a = false) asgs.
Proof.
  intros Hal Hd Hu Hpos Hq Htot.
  destruct ws as [|r0 ws0].
  { destruct os; [|cbn in Htot; lia].
    exists h0, []. split; [destruct h0; reflexivity | constructor]. }
  set (ws := r0 :: ws0) in *.
  assert (Hconv : quantities_convert os).
  { intros o Ho. rewrite (Hq o Ho). eexists. reflexivity. }
  destruct (engine_listed_run L h0 ws os tc bp ltac:(discriminate) Hal Hd Hconv)
    as (hc & whs & h' & asgs & Hco & Hrun & Htrace).
  exists h', asgs. split; [exact Hrun|].
  assert (Hu' : unique_ids hc whs).
  { unfold unique_ids. rewrite (copy_of_map w_id _ _ _ _ _ Hco). exact Hu. }
  apply (run_unit_stock L hc whs tc bp (NoDup_map_inv _ _ Hu') _ _ _ _ Htrace).
  - intros c Hc. destruct (copy_of_origin _ _ _ _ _ c Hco Hc) as (r & Hr & ->).
    apply Hpos. exact Hr.
  - exact Hq.
  - unfold total_inventory in *.
    rewrite (copy_of_map w_inventory _ _ _ _ _ Hco). exact Htot.
Qed.

Lemma demo_unit_orders o : In o Demo.orders -> qty_of o = 1%Z.
Proof. intros Ho. in_cases Ho; reflexivity. Qed.

Lemma unit_orders_within_stock_not_backordered_witness :
  exists h' asgs,
    assign_orders_to_warehouses small_angle_libm Demo.warehouses
      (firstn 3 Demo.orders) 0.5 50 Demo.heap = (h', Ok asgs)
    /\ Forall (fun a => a_backorder a = false) asgs.
Proof.
  apply (unit_orders_within_stock_not_backordered small_angle_libm Demo.heap
           Demo.warehouses (firstn 3 Demo.orders) 0.5 50).
  - exact demo_allocated.
  - intros o r Ho Hr. apply demo_distances_computed; [|exact Hr].
    cbn in Ho |- *. tauto.
  - exact demo_unique_ids.
  - intros r Hr. in_cases Hr; cbn; lia.
  - intros o Ho. apply demo_unit_orders. cbn in Ho |- *. tauto.
  - cbn. lia.
Defined.

(* ================================================================== *)
(** * The assignment engine: the warehouse chosen *)

Lemma leb_refl x : is_nan x = false -> (x <=? x)%float = true.
Proof.
  intros Hx. apply FloatFacts.nlt_leb; [exact Hx | exact Hx|].
  destruct (x <? x)%float eqn:E; [|reflexivity].
  rewrite <- E. apply FloatFacts.ltb_asym. exact E.
Qed.

Lemma StronglySorted_after {A} (R : A -> A -> Prop) pre x post :
  StronglySorted R (pre ++ x :: post) -> Forall (R x) post.
Proof.
  induction pre as [|y pre IH]; cbn; intros H;
    apply StronglySorted_inv in H; destruct H as [Hs Hall].
  - exact Hall.
  - apply IH. exact Hs.
Qed.

Lemma Forall2_in_r {A B} (P : A -> B -> Prop) l l' y :
  Forall2 P l l' -> In y l' -> exists x, In x l /\ P x y.
Proof.
  induction 1 as [|x y' l l' Hxy _ IH]; intros Hy; [destruct Hy|].
  destruct Hy as [->|Hy]; [exists x; split; [left; reflexivity | exact Hxy]|].
  destruct (IH Hy) as (x' & Hx' & HP). exists x'. split; [right|]; assumption.
Qed.

Lemma Forall2_in_l {A B} (P : A -> B -> Prop) l l' x :
  Forall2 P l l' -> In x l -> exists y, In y l' /\ P x y.
Proof.
  induction 1 as [|x' y l l' Hxy _ IH]; intros Hx; [destruct Hx|].
  destruct Hx as [->|Hx]; [exists y; split; [left; reflexivity | exact Hxy]|].
  destruct (IH Hx) as (y' & Hy' & HP). exists y'. split; [right|]; assumption.
Qed.

(** X3.  The body of the loop, on any state of the working copy in which
    the distances of the order are numbers: the order goes to a warehouse
    of the list that is nearest among those holding the quantity, and its
    stock is taken; when no warehouse holds the quantity it goes to a
    nearest warehouse of the whole list, backordered, and the stocks are as
    they were. *)
Theorem order_served_by_nearest_stocked L whs tc bp o h :
  whs <> [] ->
  (forall w, In w whs ->
     exists d, distance_to L h o w = Ok d /\ is_nan d = false) ->
  (exists fq, float_of_int (qty_of o) = Ok fq) ->
  exists h' a w d,
    assign_order L whs tc bp o h = (h', Ok a)
    /\ In w whs
    /\ distance_to L h o w = Ok d
    /\ a_warehouse_id a = w_id (cell h w)
    /\ a_dist_km a = round2 d
    /\ (a_backorder a = false ->
        (qty_of o <= w_inventory (cell h w))%Z
        /\ w_inventory (cell h' w) = (w_inventory (cell h w) - qty_of o)%Z
        /\ forall w' d',
             In w' whs -> distance_to L h o w' = Ok d' ->
             (qty_of o <= w_inventory (cell h w'))%Z ->
             (d <=? d')%float = true)
    /\ (a_backorder a = true ->
        (forall w', In w' whs -> (w_inventory (cell h w') < qty_of o)%Z)
        /\ (forall r, cell h' r = cell h r)
        /\ forall w' d',
             In w' whs -> distance_to L h o w' = Ok d' ->
             (d <=? d')%float = true).
Proof.
  intros Hne Hd [fq Hfq].
  destruct (distances_of_ok L (fun d => is_nan d = false) h o whs Hd)
    as (ds & Hds & Hn).
  destruct (assign_order_spec L (fun h o => sorted_candidates L h o whs)
              whs tc bp o h ds fq Hne Hds
              (sorted_candidates_sort L h o whs ds Hds Hn) Hfq)
    as (h' & a & Hrun & cands & w & d & b & fq' & HC & Hsel & _ & ->).
  destruct HC as (ds0 & Hall & Hperm & Hsorted & _).
  assert (Hcand : forall c, In c cands ->
            In (snd c) whs /\ distance_to L h o (snd c) = Ok (fst c)).
  { intros c Hc.
    destruct (Forall2_in_r _ _ _ c Hall) as (w0 & Hw0 & <- & Hdist);
      [eapply Permutation_in; [symmetry; exact Hperm | exact Hc]|].
    split; assumption. }
  assert (Hlisted : forall w' d',
            In w' whs -> distance_to L h o w' = Ok d' -> In (d', w') cands).
  { intros w' d' Hw' Hd'.
    destruct (Forall2_in_l _ _ _ w' Hall Hw') as ([d0 w0] & Hin & E & Hdist).
    cbn in E, Hdist. subst w0. rewrite Hd' in Hdist. injection Hdist as ->.
    eapply Permutation_in; [exact Hperm | exact Hin]. }
  destruct (Hcand _ (selection_in _ _ _ _ _ _ _ Hsel)) as [Hw Hdw].
  cbn [fst snd] in Hw, Hdw.
  assert (Hrefl : (d <=? d)%float = true).
  { destruct (Hd w Hw) as (d0 & E & Hnan). rewrite Hdw in E.
    injection E as <-. apply leb_refl. exact Hnan. }
  exists h', (record tc bp o (cell h' w) d b fq'), w, d.
  split; [exact Hrun|]. split; [exact Hw|]. split; [exact Hdw|].
  split.
  { destruct (selection_static _ _ _ _ _ _ _ Hsel) as [_ Hs].
    destruct (Hs w) as [E _]. exact E. }
  split; [reflexivity|].
  cbn [record a_backorder].
  destruct Hsel as [pre d0 w0 post h1 E Hpre Hst Hdec | d0 w0 rest h1 E Hno Hun].
  - split; [|discriminate]. intros _.
    destruct Hdec as (_ & Hinv & _ & _). unfold stocked in Hst.
    cbn [snd] in Hst. split; [exact Hst|]. split; [exact Hinv|].
    intros w' d' Hw' Hd' Hstock.
    pose proof (Hlisted w' d' Hw' Hd') as Hin. rewrite E in Hin.
    apply in_app_or in Hin. destruct Hin as [Hin|[Hin|Hin]].
    + exfalso. rewrite Forall_forall in Hpre. exact (Hpre _ Hin Hstock).
    + injection Hin as <- _. exact Hrefl.
    + rewrite E in Hsorted. apply StronglySorted_after in Hsorted.
      rewrite Forall_forall in Hsorted. exact (Hsorted _ Hin).
  - split; [discriminate|]. intros _.
    destruct Hun as [_ Hcells]. split; [|split; [exact Hcells|]].
    + intros w' Hw'. destruct (Hd w' Hw') as (d' & Hd' & _).
      pose proof (Hlisted w' d' Hw' Hd') as Hin.
      rewrite Forall_forall in Hno. specialize (Hno _ Hin).
      unfold stocked in Hno. cbn [snd] in Hno. lia.
    + intros w' d' Hw' Hd'.
      pose proof (Hlisted w' d' Hw' Hd') as Hin. rewrite E in Hin.
      destruct Hin as [Hin|Hin]; [injection Hin as <- _; exact Hrefl|].
      rewrite E in Hsorted. apply StronglySorted_inv in Hsorted.
      destruct Hsorted as [_ Hsorted].
      rewrite Forall_forall in Hsorted. exact (Hsorted _ Hin).
Qed.

Lemma order_served_by_nearest_stocked_witness :
  exists h' a w d,
    assign_order small_angle_libm Demo.warehouses 0.5 50 Demo.order_4 Demo.heap
    = (h', Ok a)
    /\ In w Demo.warehouses
    /\ distance_to small_angle_libm Demo.heap Demo.order_4 w = Ok d
    /\ a_warehouse_id a = w_id (cell Demo.heap w)
    /\ a_dist_km a = round2 d
    /\ (a_backorder a = false ->
        (qty_of Demo.order_4 <= w_inventory (cell Demo.heap w))%Z
        /\ w_inventory (cell h' w)
           = (w_inventory (cell Demo.heap w) - qty_of Demo.order_4)%Z
        /\ forall w' d',
             In w' Demo.warehouses ->
             distance_to small_angle_libm Demo.heap Demo.order_4 w' = Ok d' ->
             (qty_of Demo.order_4 <= w_inventory (cell Demo.heap w'))%Z ->
             (d <=? d')%float = true)
    /\ (a_backorder a = true ->
        (forall w', In w' Demo.warehouses ->
                    (w_inventory (cell Demo.heap w') < qty_of Demo.order_4)%Z)
        /\ (forall r, cell h' r = cell Demo.heap r)
        /\ forall w' d',
             In w' Demo.warehouses ->
             distance_to small_angle_libm Demo.heap Demo.order_4 w' = Ok d' ->
             (d <=? d')%float = true).
Proof.
  apply (order_served_by_nearest_stocked small_angle_libm Demo.warehouses
           0.5 50 Demo.order_4 Demo.heap).
  - discriminate.
  - intros w Hw.
    apply (demo_distances_defined Demo.order_4 w);
      [do 3 right; left; reflexivity | exact Hw].
  - eexists. vm_compute. reflexivity.
Defined.

(* ================================================================== *)
(** * The assignment engine: cost parameters, returns and exceptions *)

Lemma assign_order_unfold L whs tc bp o h :
  assign_order L whs tc bp o h
  = match distances_of L h o whs with
    | Raise e => (h, Raise e)
    | Ok ds =>
        match scan (sort_distances ds) (qty_of o) h with
        | (h1, Ok found) =>
            match fallback (sort_distances ds) found with
            | Ok (w, d, b) =>
                match float_of_int (qty_of o) with
                | Ok fq => (h1, Ok (record tc bp o (cell h1 w) d b fq))
                | Raise e => (h1, Raise e)
                end
            | Raise e => (h1, Raise e)
            end
        | (h1, Raise e) => (h1, Raise e)
        end
    end.
Proof.
  unfold assign_order, bindM, get_heap, lift, read, ret.
  destruct (distances_of L h o whs) as [ds|e]; [|reflexivity].
  destruct (scan (sort_distances ds) (qty_of o) h) as [h1 [found|e]];
    [|reflexivity].
  destruct (fallback (sort_distances ds) found) as [[[w d] b]|e];
    [|reflexivity].
  destruct (float_of_int (qty_of o)); reflexivity.
Qed.

Lemma assign_loop_cost_parameters L whs tc bp tc' bp' os :
  forall h,
    fst (assign_loop L whs tc' bp' os h) = fst (assign_loop L whs tc bp os h)
    /\ map_result (map choice) (snd (assign_loop L whs tc' bp' os h))
       = map_result (map choice) (snd (assign_loop L whs tc bp os h)).
Proof.
  induction os as [|o os IH]; intros h; [split; reflexivity|].
  rewrite !assign_loop_cons, !assign_order_unfold.
  destruct (distances_of L h o whs) as [ds|e]; [|split; reflexivity].
  destruct (scan (sort_distances ds) (qty_of o) h) as [h1 [found|e]];
    [|split; reflexivity].
  destruct (fallback (sort_distances ds) found) as [[[w d] b]|e];
    [|split; reflexivity].
  destruct (float_of_int (qty_of o)) as [fq|e]; [|split; reflexivity].
  specialize (IH h1).
  destruct (assign_loop L whs tc bp os h1) as [h2 [rest|e]],
           (assign_loop L whs tc' bp' os h1) as [h2' [rest'|e']];
    cbn [fst snd map_result] in IH |- *; destruct IH as [-> E];
    try discriminate; split; try reflexivity.
  - injection E as E. cbn [map]. rewrite E. reflexivity.
  - exact E.
Qed.

(** X4.  The transport rate and the backorder penalty take no part in the
    selection: with any two settings the engine leaves the same state and
    either raises the same exception or returns assignments that agree on
    every field but the transport cost and the total cost. *)
Theorem selection_ignores_cost_parameters L ws os tc bp tc' bp' h0 :
  fst (assign_orders_to_warehouses L ws os tc' bp' h0)
  = fst (assign_orders_to_warehouses L ws os tc bp h0)
  /\ map_result (map choice)
       (snd (assign_orders_to_warehouses L ws os tc' bp' h0))
     = map_result (map choice)
         (snd (assign_orders_to_warehouses L ws os tc bp h0)).
Proof.
  unfold assign_orders_to_warehouses, bindM.
  destruct (deepcopy_spec h0 ws) as (hc & whs & -> & _).
  apply assign_loop_cost_parameters.
Qed.

Lemma assign_order_ok_inv L whs tc bp o h h' a :
  assign_order L whs tc bp o h = (h', Ok a) ->
  whs <> []
  /\ exists ds fq,
       distances_of L h o whs = Ok ds /\ float_of_int (qty_of o) = Ok fq.
Proof.
  rewrite assign_order_unfold.
  destruct (distances_of L h o whs) as [ds|e] eqn:Hds; [|discriminate].
  destruct (scan (sort_distances ds) (qty_of o) h) as [h1 [found|e]] eqn:Hscan;
    [|discriminate].
  destruct (fallback (sort_distances ds) found) as [[[w d] b]|e] eqn:Hfb;
    [|discriminate].
  destruct (float_of_int (qty_of o)) as [fq|e] eqn:Hfq; [|discriminate].
  intros _. split; [|exists ds, fq; split; reflexivity].
  intros ->. cbn in Hds. injection Hds as <-. cbn in Hscan.
  injection Hscan as <- <-. discriminate Hfb.
Qed.

Lemma assign_loop_ok_run L (C : Heap -> Order -> list (float * ref) -> Prop)
    whs tc bp hc :
  (forall h o ds,
     heap_static hc h -> distances_of L h o whs = Ok ds ->
     C h o (sort_distances ds)) ->
  forall os h h' asgs,
    heap_static hc h ->
    assign_loop L whs tc bp os h = (h', Ok asgs) ->
    run (step C tc bp) h os h' asgs
    /\ (os <> [] -> whs <> [])
    /\ forall o, In o os ->
         (exists ds, distances_of L hc o whs = Ok ds)
         /\ exists fq, float_of_int (qty_of o) = Ok fq.
Proof.
  intros HC. induction os as [|o os IH]; intros h h' asgs Hh Hloop.
  - injection Hloop as <- <-.
    split; [constructor|]. split; [congruence|]. intros o [].
  - rewrite assign_loop_cons in Hloop.
    destruct (assign_order L whs tc bp o h) as [h1 [a|e]] eqn:Ha;
      [|discriminate].
    destruct (assign_loop L whs tc bp os h1) as [h2 [rest|e]] eqn:Hl;
      [|discriminate].
    injection Hloop as <- <-.
    destruct (assign_order_ok_inv _ _ _ _ _ _ _ _ Ha)
      as (Hne & ds & fq & Hds & Hfq).
    destruct (assign_order_spec L C whs tc bp o h ds fq Hne Hds
                (HC h o ds Hh Hds) Hfq) as (h1' & a' & Ha' & Hstep).
    rewrite Ha in Ha'. injection Ha' as <- <-.
    destruct (IH h1 h2 rest) as (Hrun & _ & Hall); [|exact Hl|].
    { eapply heap_static_trans; [exact Hh | eapply step_static, Hstep]. }
    split; [econstructor; eassumption|]. split; [intros _; exact Hne|].
    intros o' [<-|Ho']; [|apply Hall; exact Ho'].
    split; [|exists fq; exact Hfq].
    exists ds. rewrite <- (distances_of_static L hc h o whs Hh). exact Hds.
Qed.

Lemma engine_ok_run L h0 ws os tc bp h' asgs :
  allocated h0 ws ->
  assign_orders_to_warehouses L ws os tc bp h0 = (h', Ok asgs) ->
  exists hc whs,
    copy_of (next h0) h0 ws hc whs
    /\ run (step (listed_candidates L hc whs) tc bp) hc os h' asgs
    /\ (os <> [] -> ws <> [])
    /\ distances_computed L h0 ws os
    /\ quantities_convert os.
Proof.
  intros Hal. unfold assign_orders_to_warehouses, bindM.
  destruct (deepcopy_spec h0 ws) as (hc & whs & -> & _ & _ & _ & Hlen & Hco).
  specialize (Hco Hal). intros Hloop.
  destruct (assign_loop_ok_run L (listed_candidates L hc whs) whs tc bp hc)
    with (os := os) (h := hc) (h' := h') (asgs := asgs)
    as (Hrun & Hne & Hall);
    [ intros h o ds Hh Hds; apply listed_candidates_sort;
      [exact Hh | exact Hds | apply Forall_forall; intros; exact I]
    | apply heap_static_refl
    | exact Hloop
    | ].
  exists hc, whs. split; [exact Hco|]. split; [exact Hrun|].
  split; [|split].
  - intros Hos Hws. apply (Hne Hos). subst ws. destruct whs; [reflexivity|].
    discriminate Hlen.
  - intros o r Ho Hr.
    destruct (Hall o Ho) as [[ds Hds] _].
    destruct (copy_of_image _ _ _ _ _ r Hco Hr) as (c & Hc & E).
    destruct (Forall2_in_l _ _ _ c (distances_of_spec L hc o whs ds Hds) Hc)
      as (y & _ & _ & Hy).
    exists (fst y). unfold distance_to in *. rewrite <- E. exact Hy.
  - intros o Ho. apply (Hall o Ho).
Qed.



Lemma pow2_raise L x e : pow2 L x = Raise e -> e = OverflowError.
Proof.
  unfold pow2.
  repeat match goal with
         | |- context [if ?b then _ else _] => destruct b
         end; congruence.
Qed.

Lemma haversine_km_raise L lat1 lon1 lat2 lon2 e :
  haversine_km L lat1 lon1 lat2 lon2 = Raise e ->
  e = ValueError \/ e = OverflowError.
Proof.
  unfold haversine_km, sin, cos, asin, sqrt.
  repeat match goal with
         | |- context [bind (math_1 ?f ?x) _] =>
             let E := fresh "E" in
             destruct (math_1 f x) eqn:E; cbn [bind];
             [|apply math_1_raise in E; intros [= <-]; left; exact E]
         | |- context [bind (pow2 L ?x) _] =>
             let E := fresh "E" in
             destruct (pow2 L x) eqn:E; cbn [bind];
             [|apply pow2_raise in E; intros [= <-]; right; exact E]
         end.
  discriminate.
Qed.







Lemma assign_loop_app L whs tc bp os1 os2 :
  forall h,
    assign_loop L whs tc bp (os1 ++ os2) h
    = match assign_loop L whs tc bp os1 h with
      | (h1, Ok asgs1) =>
          match assign_loop L whs tc bp os2 h1 with
          | (h2, Ok asgs2) => (h2, Ok (asgs1 ++ asgs2))
          | (h2, Raise e) => (h2, Raise e)
          end
      | (h1, Raise e) => (h1, Raise e)
      end.
Proof.
  induction os1 as [|o os1 IH]; intros h; cbn [app].
  - change (assign_loop L whs tc bp [] h) with (h, Ok (@nil Assignment)).
    cbv beta iota.
    destruct (assign_loop L whs tc bp os2 h) as [h2 [asgs2|e]]; reflexivity.
  - rewrite !assign_loop_cons.
    destruct (assign_order L whs tc bp o h) as [h1 [a|e]]; [|reflexivity].
    rewrite IH.
    destruct (assign_loop L whs tc bp os1 h1) as [h2 [asgs1|e]]; [|reflexivity].
    destruct (assign_loop L whs tc bp os2 h2) as [h3 [asgs2|e]]; reflexivity.
Qed.

Lemma assign_loop_length L whs tc bp os h h' asgs :
  assign_loop L whs tc bp os h = (h', Ok asgs) ->
  List.length asgs = List.length os.
Proof.
  intros Hloop.
  destruct (assign_loop_ok_run L (fun _ _ _ => True) whs tc bp h
              (fun _ _ _ _ _ => I) os h h' asgs (heap_static_refl h) Hloop)
    as [Hrun _].
  eapply run_length, Hrun.
Qed.

(** X7.  The engine does not look ahead: when it returns for a list of
    orders, it returns for every initial part of the list, and the
    assignments of that part are the first assignments of the whole
    list. *)
Theorem earlier_assignments_ignore_later_orders
    L ws os1 os2 tc bp h0 h' asgs :
  assign_orders_to_warehouses L ws (os1 ++ os2) tc bp h0 = (h', Ok asgs) ->
  exists h1 asgs1 asgs2,
    assign_orders_to_warehouses L ws os1 tc bp h0 = (h1, Ok asgs1)
    /\ asgs = asgs1 ++ asgs2
    /\ List.length asgs1 = List.length os1.
Proof.
  unfold assign_orders_to_warehouses, bindM.
  destruct (deepcopy_spec h0 ws) as (hc & whs & -> & _).
  rewrite assign_loop_app.
  destruct (assign_loop L whs tc bp os1 hc) as [h1 [asgs1|e]] eqn:H1;
    [|discriminate].
  destruct (assign_loop L whs tc bp os2 h1) as [h2 [asgs2|e]];
    [|discriminate].
  intros [= <- <-]. exists h1, asgs1, asgs2.
  split; [reflexivity|]. split; [reflexivity|].
  eapply assign_loop_length, H1.
Qed.

Lemma earlier_assignments_ignore_later_orders_witness :
  exists h' asgs h1 asgs1 asgs2,
    assign_orders_to_warehouses small_angle_libm Demo.warehouses
      (firstn 2 Demo.orders ++ skipn 2 Demo.orders) 0.5 50 Demo.heap
    = (h', Ok asgs)
    /\ assign_orders_to_warehouses small_angle_libm Demo.warehouses
         (firstn 2 Demo.orders) 0.5 50 Demo.heap
       = (h1, Ok asgs1)
    /\ asgs = asgs1 ++ asgs2
    /\ List.length asgs1 = List.length (firstn 2 Demo.orders).
Proof.
  destruct (engine_records small_angle_libm Demo.heap Demo.warehouses
              Demo.orders 0.5 50 ltac:(discriminate) demo_allocated
              demo_distances_computed demo_quantities_convert)
    as (h' & asgs & Hrun & _).
  exists h', asgs.
  destruct (earlier_assignments_ignore_later_orders small_angle_libm
              Demo.warehouses (firstn 2 Demo.orders) (skipn 2 Demo.orders)
              0.5 50 Demo.heap h' asgs Hrun)
    as (h1 & asgs1 & asgs2 & H).
  exists h1, asgs1, asgs2. split; [exact Hrun | exact H].
Defined.

(* ================================================================== *)
(** * The routing orchestrator: the routes *)

Lemma chain_step routing solution idx k :
  chain routing solution idx (S k)
  = IndexToNode routing idx :: chain routing solution (solution idx) k.
Proof.
  unfold chain. change (seq 0 (S (S k))) with (0 :: seq 1 (S k)).
  rewrite <- seq_shift, map_cons, map_map.
  change (Nat.iter 0 solution idx) with idx. f_equal.
  apply map_ext. intros j. rewrite Nat.iter_succ_r. reflexivity.
Qed.

Lemma walk_chain routing solution fuel :
  forall idx k,
    first_end routing solution idx k -> k < fuel ->
    walk routing solution fuel idx = Some (chain routing solution idx k).
Proof.
  induction fuel as [|fuel IH]; intros idx k [Hend Hbefore] Hk; [lia|].
  cbn [walk]. destruct k as [|k].
  - cbn in Hend. rewrite Hend. reflexivity.
  - rewrite (Hbefore 0 ltac:(lia) : IsEnd routing idx = false).
    rewrite chain_step, (IH (solution idx) k); [reflexivity| |lia].
    split.
    + rewrite <- Nat.iter_succ_r. exact Hend.
    + intros j Hj. rewrite <- Nat.iter_succ_r. apply Hbefore. lia.
Qed.

Lemma routes_of_chains routing solution fuel (len : nat -> nat) vehicles :
  (forall v, In v vehicles ->
     first_end routing solution (Start routing v) (len v) /\ len v < fuel) ->
  routes_of routing solution fuel vehicles
  = Some (map (fun v => chain routing solution (Start routing v) (len v))
              vehicles).
Proof.
  induction vehicles as [|v vs IH]; intros H; cbn [routes_of map];
    [reflexivity|].
  destruct (H v (or_introl eq_refl)) as [Hfe Hlt].
  rewrite (walk_chain routing solution fuel _ _ Hfe Hlt).
  rewrite IH; [reflexivity|]. intros v' Hv'. apply H. right. exact Hv'.
Qed.

(** X8.  When the solver answers and the chain of [NextVar] values of
    every vehicle meets an end index, [solve_vrp] returns one route for
    each vehicle, in the order of the vehicles: the nodes of the indices
    from the start index of the vehicle along the chain up to the first end
    index, that one included. *)
Theorem routes_follow_next_until_end
    ortools fuel distance_matrix num_vehicles depot_index time_limit_s
    solution (len : nat -> nat) :
  let routing :=
    model ortools (List.length distance_matrix) num_vehicles depot_index in
  solve ortools routing (dist_cb routing distance_matrix) time_limit_s
  = Some solution ->
  (forall v, v < num_vehicles ->
     first_end routing solution (Start routing v) (len v) /\ len v < fuel) ->
  solve_vrp ortools fuel distance_matrix num_vehicles depot_index time_limit_s
  = Some (Ok (map (fun v => chain routing solution (Start routing v) (len v))
                  (seq 0 num_vehicles))).
Proof.
  intros routing Hsol Hlen. unfold solve_vrp. fold routing. rewrite Hsol.
  rewrite (routes_of_chains routing solution fuel len); [reflexivity|].
  intros v Hv. apply Hlen. apply in_seq in Hv. lia.
Qed.

Lemma routes_follow_next_until_end_witness :
  solve_vrp Demo.touring 8 [[0; 5; 7]; [5; 0; 3]; [7; 3; 0]]%Z 1 0 5
  = Some (Ok [[0; 1; 2; 0]]).
Proof.
  apply (routes_follow_next_until_end Demo.touring 8
           [[0; 5; 7]; [5; 0; 3]; [7; 3; 0]]%Z 1 0 5 S (fun _ => 3)).
  - reflexivity.
  - intros v Hv. split; [|lia]. split; [reflexivity|].
    intros j Hj. destruct j as [|[|[|j]]]; [reflexivity .. | lia].
Defined.

Lemma walk_unending routing solution fuel :
  forall idx,
    (forall j, IsEnd routing (Nat.iter j solution idx) = false) ->
    walk routing solution fuel idx = None.
Proof.
  induction fuel as [|fuel IH]; intros idx H; [reflexivity|].
  cbn [walk]. rewrite (H 0 : IsEnd routing idx = false).
  rewrite IH; [reflexivity|]. intros j. rewrite <- Nat.iter_succ_r. apply H.
Qed.

Lemma routes_of_unending routing solution fuel v vehicles :
  In v vehicles ->
  (forall j, IsEnd routing (Nat.iter j solution (Start routing v)) = false) ->
  routes_of routing solution fuel vehicles = None.
Proof.
  intros Hv H. induction vehicles as [|v' vs IH]; [destruct Hv|].
  cbn [routes_of]. destruct Hv as [->|Hv].
  - rewrite (walk_unending routing solution fuel _ H). reflexivity.
  - rewrite (IH Hv). destruct (walk routing solution fuel (Start routing v'));
      reflexivity.
Qed.

(** X9.  The loop of lines 76-78 is left only at an end index: when the
    solver answers and the chain of [NextVar] values of some vehicle never
    meets one, [solve_vrp] does not return, whatever the number of steps it
    is given. *)
Theorem solve_vrp_needs_an_end_index
    ortools distance_matrix num_vehicles depot_index time_limit_s solution v :
  let routing :=
    model ortools (List.length distance_matrix) num_vehicles depot_index in
  solve ortools routing (dist_cb routing distance_matrix) time_limit_s
  = Some solution ->
  v < num_vehicles ->
  (forall j, IsEnd routing (Nat.iter j solution (Start routing v)) = false) ->
  forall fuel,
    solve_vrp ortools fuel distance_matrix num_vehicles depot_index
      time_limit_s
    = None.
Proof.
  intros routing Hsol Hv H fuel. unfold solve_vrp. fold routing. rewrite Hsol.
  rewrite (routes_of_unending routing solution fuel v); [reflexivity| |exact H].
  apply in_seq. lia.
Qed.

Lemma solve_vrp_needs_an_end_index_witness :
  solve_vrp Demo.circling 1000 [[0; 5]; [5; 0]]%Z 1 0 5 = None.
Proof.
  apply (solve_vrp_needs_an_end_index Demo.circling [[0; 5]; [5; 0]]%Z 1 0 5
           (fun _ => 0) 0).
  - reflexivity.
  - lia.
  - intros j. reflexivity.
Defined.

(* ================================================================== *)
(** * The route planner: the matrix handed to the solver *)




Lemma mapM_raise {A B} (f : A -> result B) l e :
  mapM f l = Raise e -> exists x, In x l /\ f x = Raise e.
Proof.
  induction l as [|x l IH]; cbn [mapM]; [discriminate|].
  destruct (f x) as [y|e'] eqn:Hx; cbn [bind].
  - destruct (mapM f l) as [ys|e'] eqn:Hl; cbn [bind]; [discriminate|].
    intros [= ->]. destruct (IH eq_refl) as (x' & Hx' & E).
    exists x'. split; [right; exact Hx' | exact E].
  - intros [= ->]. exists x. split; [left; reflexivity | exact Hx].
Qed.

Lemma int_of_float_raise x e :
  int_of_float x = Raise e -> e = ValueError \/ e = OverflowError.
Proof.
  unfold int_of_float. destruct (Prim2SF x); intros [= <-]; auto.
Qed.

Lemma entry_raise L a b e :
  entry L a b = Raise e -> e = ValueError \/ e = OverflowError.
Proof.
  unfold entry.
  destruct (haversine_km L (l_lat a) (l_lon a) (l_lat b) (l_lon b))
    as [d|e'] eqn:Hd; cbn [bind].
  - apply int_of_float_raise.
  - intros [= <-]. eapply haversine_km_raise, Hd.
Qed.

(** X11.  The exceptions of [build_distance_matrix].  With no stop it
    returns the matrix [[0]] and computes no distance; it raises only with
    a stop, and then the [ValueError] or the [OverflowError] of a distance
    or of its conversion to an integer. *)
Theorem distance_matrix_exceptions L depot customers :
  (customers = [] -> build_distance_matrix L depot customers = Ok [[0%Z]])
  /\ (forall e,
        build_distance_matrix L depot customers = Raise e ->
        customers <> [] /\ (e = ValueError \/ e = OverflowError)).
Proof.
  split; [intros ->; reflexivity|].
  intros e H. split; [intros ->; discriminate H|].
  unfold build_distance_matrix in H.
  apply mapM_raise in H. destruct H as (i & _ & H).
  apply mapM_raise in H. destruct H as (j & _ & H).
  destruct (Nat.eqb i j); [discriminate|].
  eapply entry_raise, H.
Qed.

Lemma distance_matrix_exceptions_witness :
  build_distance_matrix sampled_libm Demo.depot [] = Ok [[0%Z]]
  /\ [Demo.stop_n] <> []
  /\ (ValueError = ValueError \/ ValueError = OverflowError).
Proof.
  split.
  - apply (proj1 (distance_matrix_exceptions sampled_libm Demo.depot [])).
    reflexivity.
  - apply (proj2 (distance_matrix_exceptions sampled_libm Demo.depot_s
                    [Demo.stop_n]) ValueError).
    vm_compute. reflexivity.
Defined.

(* ================================================================== *)
(** * The dashboard *)

Lemma engine_frame L ws os tc bp h0 :
  next h0 <= next (fst (assign_orders_to_warehouses L ws os tc bp h0))
  /\ forall r, r < next h0 ->
       cell (fst (assign_orders_to_warehouses L ws os tc bp h0)) r
       = cell h0 r.
Proof.
  unfold assign_orders_to_warehouses, bindM.
  destruct (deepcopy_spec h0 ws) as (hc & whs & -> & Hn & Hf & Hfresh & _ & _).
  pose proof (assign_loop_frame L whs tc bp os hc) as [F1 F2].
  split; [rewrite F1; exact Hn|].
  intros r Hr. rewrite F2; [apply Hf; exact Hr|].
  intros Hin. rewrite Forall_forall in Hfresh.
  specialize (Hfresh r Hin). lia.
Qed.

Lemma run_Forall P (Q : Assignment -> Prop) h os h' asgs :
  (forall h1 o h2 a, P h1 o h2 a -> Q a) ->
  run P h os h' asgs -> Forall Q asgs.
Proof. intros HPQ. induction 1; constructor; eauto. Qed.

Lemma step_weaken (C C' : Heap -> Order -> list (float * ref) -> Prop)
    tc bp h o h' a :
  (forall h o cands, C h o cands -> C' h o cands) ->
  step C tc bp h o h' a -> step C' tc bp h o h' a.
Proof.
  intros HCC (cands & w & d & b & fq & HC & Hrest).
  exists cands, w, d, b, fq. split; [apply HCC; exact HC | exact Hrest].
Qed.

Lemma engine_names L h0 ws os tc bp h' asgs :
  allocated h0 ws ->
  assign_orders_to_warehouses L ws os tc bp h0 = (h', Ok asgs) ->
  names_warehouses h0 ws asgs.
Proof.
  intros Hal Hrun.
  destruct (engine_ok_run L h0 ws os tc bp h' asgs Hal Hrun)
    as (hc & whs & Hco & Htrace & _).
  eapply run_Forall; [|exact Htrace].
  intros h1 o h2 a Hstep.
  apply (step_weaken _ (annotated_candidates L hc whs)) in Hstep;
    [|intros ? ? ? [HA _]; exact HA].
  destruct (step_record L _ _ _ _ _ _ _ _ _ _ _ Hco Hstep)
    as (r & d & b & fq & Hr & _ & _ & ->).
  exists r. split; [exact Hr | reflexivity].
Qed.

Lemma names_warehouses_frame h h1 ws asgs :
  allocated h ws ->
  (forall r, r < next h -> cell h1 r = cell h r) ->
  names_warehouses h ws asgs -> names_warehouses h1 ws asgs.
Proof.
  intros Hal Hf. unfold names_warehouses, allocated in *.
  rewrite Forall_forall in Hal. apply Forall_impl.
  intros a (r & Hr & E). exists r. split; [exact Hr|].
  rewrite (Hf r (Hal r Hr)). exact E.
Qed.

Lemma allocated_frame h h1 ws :
  next h <= next h1 -> allocated h ws -> allocated h1 ws.
Proof.
  intros Hn. unfold allocated. apply Forall_impl. intros r Hr. lia.
Qed.

Section DashboardFacts.
Variable L : Libm.
Variable ortools : Solver.
Variable fuel : nat.
Variable warehouses : list ref.
Variable orders : list Order.

Lemma select_source_step_ok ui h s :
  session_ok h warehouses s ->
  session_ok (fst (fst (select_source_step L warehouses orders ui (h, s))))
             warehouses
             (snd (fst (select_source_step L warehouses orders ui (h, s)))).
Proof.
  intros (Hal & Hroutes & Hnames). unfold select_source_step.
  destruct (select_source ui); [|repeat split; assumption].
  pose proof (engine_frame L warehouses orders default_transport_cost_per_km
                default_backorder_penalty h) as [F1 F2].
  pose proof (engine_names L h warehouses orders
                default_transport_cost_per_km default_backorder_penalty)
    as Hnew.
  destruct (assign_orders_to_warehouses L warehouses orders
              default_transport_cost_per_km default_backorder_penalty h)
    as [h1 [asgs|e]]; cbn [fst snd] in *.
  - split; [eapply allocated_frame; eassumption|].
    split; [discriminate|].
    intros asgs' [= <-].
    eapply names_warehouses_frame; [exact Hal | exact F2|].
    eapply Hnew; [exact Hal | reflexivity].
  - split; [eapply allocated_frame; eassumption|].
    split; [exact Hroutes|].
    intros asgs Ha. eapply names_warehouses_frame; [exact Hal | exact F2|].
    apply Hnames. exact Ha.
Qed.

Lemma plan_route_step_ok ui h s :
  session_ok h warehouses s ->
  session_ok
    (fst (fst (plan_route_step L ortools fuel warehouses ui (h, s))))
    warehouses
    (snd (fst (plan_route_step L ortools fuel warehouses ui (h, s)))).
Proof.
  intros Hok. pose proof Hok as (Hal & Hroutes & Hnames).
  unfold plan_route_step.
  destruct (s_assignments s) as [[|a rest]|] eqn:Ha; try exact Hok.
  destruct (plan_route ui); [|exact Hok].
  destruct (find_warehouse h warehouses _) as [depot|]; [|exact Hok].
  destruct (build_distance_matrix L _ _) as [dm|e]; [|exact Hok].
  destruct (solve_vrp ortools fuel dm 1 0 5) as [[routes|e]|]; try exact Hok.
  cbn [fst snd s_assignments s_routes].
  split; [exact Hal|]. split; [intros _; reflexivity|].
  intros asgs [= <-]. apply Hnames. reflexivity.
Qed.

End DashboardFacts.

(** X12.  Every run of the dashboard, whether it completes, raises or
    waits for the solver, leaves a session in which routes come only with
    assignments and every assignment names a warehouse of the module,
    provided the session it started from was so. *)
Theorem dashboard_keeps_session_consistent
    L ortools fuel warehouses orders ui h s :
  session_ok h warehouses s ->
  session_ok
    (fst (fst (run_dashboard L ortools fuel warehouses orders ui (h, s))))
    warehouses
    (snd (fst (run_dashboard L ortools fuel warehouses orders ui (h, s)))).
Proof.
  intros Hok. unfold run_dashboard.
  pose proof (select_source_step_ok L warehouses orders ui h s Hok) as H1.
  destruct (select_source_step L warehouses orders ui (h, s))
    as [[h1 s1] [[]|e|]]; cbn [fst snd] in H1; try exact H1.
  pose proof (plan_route_step_ok L ortools fuel warehouses ui h1 s1 H1) as H2.
  destruct (plan_route_step L ortools fuel warehouses ui (h1, s1))
    as [[h2 s2] [[]|e|]]; cbn [fst snd] in H2; exact H2.
Qed.

Lemma demo_fresh_ok : session_ok Demo.heap Demo.warehouses Demo.fresh.
Proof.
  split; [exact demo_allocated|]. split; [discriminate|]. intros asgs [=].
Qed.

Lemma dashboard_keeps_session_consistent_witness :
  session_ok
    (fst (fst (run_dashboard small_angle_libm Demo.touring 8 Demo.warehouses
                 Demo.orders Demo.clicks (Demo.heap, Demo.fresh))))
    Demo.warehouses
    (snd (fst (run_dashboard small_angle_libm Demo.touring 8 Demo.warehouses
                 Demo.orders Demo.clicks (Demo.heap, Demo.fresh)))).
Proof.
  apply (dashboard_keeps_session_consistent small_angle_libm Demo.touring 8
           Demo.warehouses Demo.orders Demo.clicks Demo.heap Demo.fresh).
  exact demo_fresh_ok.
Defined.

Lemma wh_ids_In asgs x :
  In x (wh_ids asgs) <-> In x (map a_warehouse_id asgs).
Proof.
  unfold wh_ids. split; intros H.
  - apply (nodup_In Z.eq_dec).
    exact (Permutation_in x
             (Permutation_sym (sort_perm Z.ltb (fun z : Z => z) _)) H).
  - apply (Permutation_in x (sort_perm Z.ltb (fun z : Z => z) _)).
    apply (nodup_In Z.eq_dec). exact H.
Qed.

Lemma find_warehouse_some h ws wid r :
  In r ws -> w_id (cell h r) = wid ->
  exists r', find_warehouse h ws wid = Some r'.
Proof.
  intros Hr E. induction ws as [|r0 ws IH]; [destruct Hr|].
  cbn [find_warehouse]. destruct (w_id (cell h r0) =? wid)%Z eqn:E0.
  - exists r0. reflexivity.
  - destruct Hr as [->|Hr]; [|apply IH; exact Hr].
    apply Z.eqb_neq in E0. contradiction.
Qed.

Lemma find_warehouse_spec h ws wid r :
  find_warehouse h ws wid = Some r -> In r ws /\ w_id (cell h r) = wid.
Proof.
  induction ws as [|r0 ws IH]; cbn [find_warehouse]; [discriminate|].
  destruct (w_id (cell h r0) =? wid)%Z eqn:E0.
  - intros [= <-]. split; [left; reflexivity | apply Z.eqb_eq; exact E0].
  - intros H. destruct (IH H) as [Hin E]. split; [right|]; assumption.
Qed.

Lemma fail_other {A B} e :
  @Failed A e <> Failed StopIteration /\ @Failed A e <> Failed TypeError ->
  @Failed B e <> Failed StopIteration /\ @Failed B e <> Failed TypeError.
Proof.
  intros [H1 H2]. split; intros [= ->]; [apply H1 | apply H2]; reflexivity.
Qed.

Section DashboardOutcomes.
Variable L : Libm.
Variable ortools : Solver.
Variable fuel : nat.
Variable warehouses : list ref.
Variable orders : list Order.

Lemma plan_route_step_finds ui h s :
  session_ok h warehouses s ->
  selects_an_option ui ->
  snd (plan_route_step L ortools fuel warehouses ui (h, s))
  <> Failed StopIteration
  /\ snd (plan_route_step L ortools fuel warehouses ui (h, s))
     <> Failed TypeError.
Proof.
  intros (Hal & Hroutes & Hnames) Hui. unfold plan_route_step.
  destruct (s_assignments s) as [[|a rest]|] eqn:Ha;
    try (split; discriminate).
  destruct (plan_route ui); [|split; discriminate].
  assert (Hsel : In (selectbox ui (wh_ids (a :: rest))) (wh_ids (a :: rest))).
  { apply Hui. intros E.
    assert (Hin : In (a_warehouse_id a) (wh_ids (a :: rest)))
      by (apply wh_ids_In; left; reflexivity).
    rewrite E in Hin. destruct Hin. }
  apply wh_ids_In, in_map_iff in Hsel. destruct Hsel as (a' & Eid & Ha').
  specialize (Hnames _ eq_refl). unfold names_warehouses in Hnames.
  rewrite Forall_forall in Hnames.
  destruct (Hnames a' Ha') as (r & Hr & Er).
  destruct (find_warehouse_some h warehouses
              (selectbox ui (wh_ids (a :: rest))) r Hr)
    as (depot & ->); [congruence|].
  destruct (build_distance_matrix L _ _) as [dm|e]; [|split; discriminate].
  destruct (solve_vrp ortools fuel dm 1 0 5) as [[routes|e]|];
    split; discriminate.
Qed.

Lemma show_routes_step_finds h s :
  session_ok h warehouses s ->
  show_routes_step warehouses (h, s) <> Failed StopIteration
  /\ show_routes_step warehouses (h, s) <> Failed TypeError.
Proof.
  intros (Hal & Hroutes & Hnames). unfold show_routes_step.
  destruct (s_routes s) as [[|route routes]|]; try (split; discriminate).
  specialize (Hroutes eq_refl).
  destruct (s_assignments s) as [[|a rest]|]; try discriminate.
  specialize (Hnames _ eq_refl). unfold names_warehouses in Hnames.
  apply Forall_inv in Hnames. destruct Hnames as (r & Hr & Er).
  destruct warehouses as [|r0 ws0] eqn:Ews; [destruct Hr|]. rewrite <- Ews in *.
  destruct (find_warehouse_some h warehouses (a_warehouse_id a) r Hr)
    as (depot & ->); [congruence|].
  destruct (mapM _ _); split; discriminate.
Qed.

End DashboardOutcomes.

(** X13.  From a consistent session, with a select box that returns one of
    its options, no run of the dashboard fails to find its depot: neither
    [next] of line 117 nor the one of line 129 raises [StopIteration], and
    line 129 never indexes [None]. *)
Theorem dashboard_finds_its_depot L ortools fuel warehouses orders ui h s :
  session_ok h warehouses s ->
  selects_an_option ui ->
  snd (run_dashboard L ortools fuel warehouses orders ui (h, s))
  <> Failed StopIteration
  /\ snd (run_dashboard L ortools fuel warehouses orders ui (h, s))
     <> Failed TypeError.
Proof.
  intros Hok Hui. unfold run_dashboard.
  pose proof (select_source_step_ok L warehouses orders ui h s Hok) as H1.
  assert (O1 : snd (select_source_step L warehouses orders ui (h, s))
               <> Failed StopIteration
               /\ snd (select_source_step L warehouses orders ui (h, s))
                  <> Failed TypeError).
  { unfold select_source_step. destruct (select_source ui);
      [|split; discriminate].
    destruct (assign_orders_to_warehouses L warehouses orders _ _ h)
      as [h1 [asgs|e]]; split; discriminate. }
  destruct (select_source_step L warehouses orders ui (h, s))
    as [[h1 s1] [[]|e|]]; cbn [fst snd] in H1, O1 |- *;
    [|exact (fail_other e O1)|split; discriminate].
  pose proof (plan_route_step_ok L ortools fuel warehouses ui h1 s1 H1) as H2.
  pose proof (plan_route_step_finds L ortools fuel warehouses ui h1 s1 H1 Hui)
    as O2.
  destruct (plan_route_step L ortools fuel warehouses ui (h1, s1))
    as [[h2 s2] [[]|e|]]; cbn [fst snd] in H2, O2 |- *;
    [|exact (fail_other e O2)|split; discriminate].
  apply show_routes_step_finds. exact H2.
Qed.

Lemma demo_clicks_select : selects_an_option Demo.clicks.
Proof.
  intros [|x options] Hne; [congruence | left; reflexivity].
Qed.

Lemma dashboard_finds_its_depot_witness :
  snd (run_dashboard small_angle_libm Demo.touring 8 Demo.warehouses
         Demo.orders Demo.clicks (Demo.heap, Demo.fresh))
  <> Failed StopIteration
  /\ snd (run_dashboard small_angle_libm Demo.touring 8 Demo.warehouses
            Demo.orders Demo.clicks (Demo.heap, Demo.fresh))
     <> Failed TypeError.
Proof.
  apply (dashboard_finds_its_depot small_angle_libm Demo.touring 8
           Demo.warehouses Demo.orders Demo.clicks Demo.heap Demo.fresh);
    [exact demo_fresh_ok | exact demo_clicks_select].
Defined.

Lemma stop_points customers route stops :
  mapM (stop_point customers) route = Ok stops ->
  Forall (fun p => exists c, In c customers /\ p = (c_lat c, c_lon c)) stops.
Proof.
  revert stops. induction route as [|i route IH]; intros stops; cbn [mapM].
  - intros [= <-]. constructor.
  - unfold stop_point at 1.
    destruct (nth_error customers (i - 1)) as [c|] eqn:Hc; cbn [bind];
      [|discriminate].
    destruct (mapM (stop_point customers) route) as [rest|e]; cbn [bind];
      [|discriminate].
    intros [= <-]. constructor; [|apply IH; reflexivity].
    exists c. split; [eapply nth_error_In, Hc | reflexivity].
Qed.

Lemma customers_of_In asgs wid c :
  In c (customers_of asgs wid) ->
  exists a,
    In a asgs /\ a_warehouse_id a = wid
    /\ c_lat c = a_lat a /\ c_lon c = a_lon a.
Proof.
  unfold customers_of. intros H. apply in_map_iff in H.
  destruct H as (a & <- & Ha). apply filter_In in Ha. destruct Ha as [Ha E].
  exists a. repeat split; [exact Ha | apply Z.eqb_eq; exact E].
Qed.

Lemma show_routes_step_points warehouses h s coords :
  show_routes_step warehouses (h, s) = Done (Some coords) ->
  exists a rest depot stops,
    s_assignments s = Some (a :: rest)
    /\ find_warehouse h warehouses (a_warehouse_id a) = Some depot
    /\ coords
       = [(w_lat (cell h depot), w_lon (cell h depot))] ++ stops
         ++ [(w_lat (cell h depot), w_lon (cell h depot))]
    /\ Forall (fun p => exists a',
                 In a' (a :: rest)
                 /\ a_warehouse_id a' = a_warehouse_id a
                 /\ p = (a_lat a', a_lon a')) stops.
Proof.
  unfold show_routes_step.
  destruct (s_routes s) as [[|route routes]|]; try discriminate.
  destruct warehouses as [|r0 ws0] eqn:Ews; [discriminate|]. rewrite <- Ews.
  destruct (s_assignments s) as [[|a rest]|]; try discriminate.
  destruct (find_warehouse h warehouses (a_warehouse_id a)) as [depot|] eqn:Hf;
    [|discriminate].
  destruct (mapM _ _) as [stops|e] eqn:Hm; [|discriminate].
  intros [= <-]. exists a, rest, depot, stops.
  split; [reflexivity|]. split; [exact Hf|]. split; [reflexivity|].
  destruct (find_warehouse_spec _ _ _ _ Hf) as [_ Eid].
  apply stop_points in Hm. eapply Forall_impl; [|exact Hm].
  intros p (c & Hc & ->). apply customers_of_In in Hc.
  destruct Hc as (a' & Ha' & Ew & -> & ->).
  exists a'. split; [exact Ha'|]. split; [congruence | reflexivity].
Qed.

(** X14.  Whatever the select box returns, a polyline that a run shows
    starts and ends at the warehouse of the first assignment of the
    session, and every point between lies at an order assigned to that
    warehouse. *)
Theorem polyline_is_drawn_for_first_assignment
    L ortools fuel warehouses orders ui h s coords :
  snd (run_dashboard L ortools fuel warehouses orders ui (h, s))
  = Done (Some coords) ->
  exists h' s' a rest depot stops,
    fst (run_dashboard L ortools fuel warehouses orders ui (h, s)) = (h', s')
    /\ s_assignments s' = Some (a :: rest)
    /\ find_warehouse h' warehouses (a_warehouse_id a) = Some depot
    /\ coords
       = [(w_lat (cell h' depot), w_lon (cell h' depot))] ++ stops
         ++ [(w_lat (cell h' depot), w_lon (cell h' depot))]
    /\ Forall (fun p => exists a',
                 In a' (a :: rest)
                 /\ a_warehouse_id a' = a_warehouse_id a
                 /\ p = (a_lat a', a_lon a')) stops.
Proof.
  unfold run_dashboard.
  destruct (select_source_step L warehouses orders ui (h, s))
    as [[h1 s1] [[]|e|]]; cbn [fst snd]; try discriminate.
  destruct (plan_route_step L ortools fuel warehouses ui (h1, s1))
    as [[h2 s2] [[]|e|]]; cbn [fst snd]; try discriminate.
  intros Hshow.
  destruct (show_routes_step_points warehouses h2 s2 coords Hshow)
    as (a & rest & depot & stops & H).
  exists h2, s2, a, rest, depot, stops. split; [reflexivity | exact H].
Qed.

Lemma polyline_is_drawn_for_first_assignment_witness :
  exists h' s' a rest depot stops,
    fst (run_dashboard small_angle_libm Demo.touring 8 Demo.warehouses
           Demo.orders Demo.clicks (Demo.heap, Demo.fresh)) = (h', s')
    /\ s_assignments s' = Some (a :: rest)
    /\ find_warehouse h' Demo.warehouses (a_warehouse_id a) = Some depot
    /\ [(28.5, 77.25); (28.5, 77.25); (28.5, 77.25); (28.5, 77.25)]%float
       = [(w_lat (cell h' depot), w_lon (cell h' depot))] ++ stops
         ++ [(w_lat (cell h' depot), w_lon (cell h' depot))]
    /\ Forall (fun p => exists a',
                 In a' (a :: rest)
                 /\ a_warehouse_id a' = a_warehouse_id a
                 /\ p = (a_lat a', a_lon a')) stops.
Proof.
  apply (polyline_is_drawn_for_first_assignment small_angle_libm Demo.touring
           8 Demo.warehouses Demo.orders Demo.clicks Demo.heap Demo.fresh).
  vm_compute. reflexivity.
Defined.

Lemma stop_point_raise customers route :
  mapM (stop_point customers) route = Raise IndexError
  <-> exists i, In i route /\ List.length customers <= i - 1.
Proof.
  induction route as [|i route IH]; cbn [mapM].
  - split; [discriminate | intros (i & [] & _)].
  - unfold stop_point at 1.
    destruct (nth_error customers (i - 1)) as [c|] eqn:Hc; cbn [bind].
    + assert (Hlt : i - 1 < List.length customers)
        by (apply nth_error_Some; congruence).
      destruct (mapM (stop_point customers) route) as [rest|e]; cbn [bind].
      * split; [discriminate|].
        intros (j & [<-|Hj] & Hlen); [lia|].
        assert (E : @Ok (list (float * float)) rest = Raise IndexError)
          by (apply IH; exists j; split; assumption).
        discriminate E.
      * split.
        -- intros [= ->]. destruct (proj1 IH eq_refl) as (j & Hj & Hlen).
           exists j. split; [right; exact Hj | exact Hlen].
        -- intros (j & [<-|Hj] & Hlen); [lia|].
           rewrite (proj2 IH); [reflexivity|]. exists j. split; assumption.
    + split; [|reflexivity]. intros _. exists i.
      split; [left; reflexivity | apply nth_error_None; exact Hc].
Qed.

(** X15.  A run in which nothing is pressed, on a consistent session that
    holds routes: line 140 raises [IndexError] exactly when the first route
    holds a node above the number of orders assigned to the warehouse of
    the first assignment. *)
Theorem polyline_index_error_iff
    L ortools fuel warehouses orders ui h s a rest route routes :
  session_ok h warehouses s ->
  select_source ui = false ->
  plan_route ui = false ->
  s_assignments s = Some (a :: rest) ->
  s_routes s = Some (route :: routes) ->
  snd (run_dashboard L ortools fuel warehouses orders ui (h, s))
  = Failed (Exn IndexError)
  <-> exists i,
        In i route
        /\ List.length (customers_of (a :: rest) (a_warehouse_id a)) < i.
Proof.
  intros (Hal & _ & Hnames) Hb1 Hb2 Ha Hr.
  unfold run_dashboard, select_source_step, plan_route_step.
  rewrite Hb1, Ha, Hb2. cbn [snd fst]. unfold show_routes_step.
  rewrite Hr, Ha.
  specialize (Hnames _ Ha). apply Forall_inv in Hnames.
  destruct Hnames as (r & Hin & Er).
  destruct warehouses as [|r0 ws0] eqn:Ews; [destruct Hin|]. rewrite <- Ews in *.
  destruct (find_warehouse_some h warehouses (a_warehouse_id a) r Hin)
    as (depot & Hf); [congruence|].
  rewrite Hf. destruct (find_warehouse_spec _ _ _ _ Hf) as [_ ->].
  match goal with
  | |- context [mapM ?f ?l] =>
      pose proof (stop_point_raise
                    (customers_of (a :: rest) (a_warehouse_id a)) l) as Hiff;
      destruct (mapM f l) as [stops|e]
  end.
  - split; [discriminate|]. intros (i & Hi & Hlen).
    assert (E : @Ok (list (float * float)) stops = Raise IndexError).
    { apply Hiff. exists i. split; [|lia].
      apply filter_In. split; [exact Hi|]. destruct i; [lia | reflexivity]. }
    discriminate E.
  - split.
    + intros [= ->]. destruct (proj1 Hiff eq_refl) as (i & Hi & Hlen).
      apply filter_In in Hi. destruct Hi as [Hi Hnz].
      exists i. split; [exact Hi|]. destruct i; [discriminate Hnz | lia].
    + intros (i & Hi & Hlen).
      assert (E : @Raise (list (float * float)) e = Raise IndexError).
      { apply Hiff. exists i. split; [|lia].
        apply filter_In. split; [exact Hi|]. destruct i; [lia | reflexivity]. }
      injection E as ->. reflexivity.
Qed.

Lemma demo_planned_ok : session_ok Demo.heap Demo.warehouses Demo.planned.
Proof.
  split; [exact demo_allocated|]. split; [reflexivity|].
  intros asgs [= <-]. constructor; [|constructor].
  exists 0. split; [left; reflexivity | reflexivity].
Qed.

Lemma polyline_index_error_iff_witness :
  snd (run_dashboard small_angle_libm Demo.touring 8 Demo.warehouses
         Demo.orders Demo.idle (Demo.heap, Demo.planned))
  = Failed (Exn IndexError)
  <-> exists i,
        In i [0; 1; 0]
        /\ List.length (customers_of [Demo.assignment_a]
                          (a_warehouse_id Demo.assignment_a)) < i.
Proof.
  apply (polyline_index_error_iff small_angle_libm Demo.touring 8
           Demo.warehouses Demo.orders Demo.idle Demo.heap Demo.planned
           Demo.assignment_a [] [0; 1; 0] []);
    [exact demo_planned_ok | reflexivity ..].
Defined.
